(** * PRISM pipeline: iteration control and implausibility analysis

    A shallow embedding of [prism/pipeline.py] (class [Pipeline]) and of
    [prism/modellink/gaussian_link.py], together with the properties of the
    history-matching state machine that are stated about them.

    Conventions of the embedding.
    - Python floats are exact rationals ([Q]): comparisons ([==], [>], [>=])
      and the field operations are the exact ones; rounding, infinities and
      NaN are not represented.
    - Python lists indexed by an emulator iteration are [list]s read with
      stdpp's lookup [l !! i]; a read or a write out of range raises
      [IndexError], as in Python.
    - The HDF5-file is a finite map from the iteration number to the
      attributes and data sets the pipeline keeps in that group.
    - Exceptions are values of [exn]; stateful methods live in the monad [M]
      (state passing with an exceptional outcome).
    - Only the controller process (rank 0) is modelled. *)

From Stdlib Require Import QArith Sorting.Sorted Sorting.Permutation.
From stdpp Require Import base list gmap strings.

Open Scope Q_scope.

(** * Part I: the embedding of the code *)

(** ** Python exceptions and outcomes *)

Inductive exn : Set :=
| IndexError
| KeyError
| AttributeError
| TypeError
| ValueError
| ZeroDivisionError
| UnboundLocalError
| NotImplementedError
| KeyboardInterrupt
| RequestError
| RuntimeError
| InputError
| ShapeError.

#[global] Instance exn_eq_dec : EqDecision exn.
Proof. solve_decision. Defined.

(** The outcome of a Python call: a value or a raised exception. *)
Inductive result (A : Type) : Type :=
| Return (a : A)
| Raise (e : exn).
Arguments Return {A} a.
Arguments Raise {A} e.

#[global] Instance result_ret : MRet result := @Return.
#[global] Instance result_bind : MBind result := λ A B f r,
  match r with
  | Return a => f a
  | Raise e => Raise e
  end.

(** [l[i]] on a Python list. *)
Definition getitem {A : Type} (l : list A) (i : nat) : result A :=
  match l !! i with
  | Some x => Return x
  | None => Raise IndexError
  end.

(** [l[i] = x] on a Python list. *)
Definition setitem {A : Type} (l : list A) (i : nat) (x : A) : result (list A) :=
  if decide (i < length l)%nat then Return (<[i := x]> l) else Raise IndexError.

(** A [for] loop over [l] that threads the loop state and stops at the first
    exception. *)
Fixpoint for_result {A B : Type} (f : B → A → result B) (l : list A) (b : B)
  : result B :=
  match l with
  | [] => Return b
  | x :: l' => b' ← f b x; for_result f l' b'
  end.

(** ** Floats *)

Abbreviation float := Q (only parsing).

Definition float_eqb (x y : float) : bool := Qeq_bool x y.
Definition float_leb (x y : float) : bool := Qle_bool x y.
(** [x > y] *)
Definition float_gtb (x y : float) : bool := negb (Qle_bool x y).
(** [x != 0] *)
Definition nonzero (x : float) : bool := negb (float_eqb x 0).

(** [pow(x, 2)] *)
Definition pow2 (x : float) : float := x ^ 2.

(** [np.sort(a)]: the values in ascending order. *)
Fixpoint sort_insert (x : float) (l : list float) : list float :=
  match l with
  | [] => [x]
  | y :: l' => if float_leb x y then x :: l else y :: sort_insert x l'
  end.

Definition np_sort (l : list float) : list float := foldr sort_insert [] l.

(** [np.flip(a)] *)
Definition np_flip (l : list float) : list float := reverse l.

(** ** Argument checks of [prism/_internal.py] *)

(** Modelled from the spec: [check_nneg_float] of [prism/_internal.py] is not
    part of the sources at hand.  The spec asks of a checked value that it
    "must be non-negative, else rejected", and the callers use the returned
    value in place of the argument; a rejected value raises [ValueError]. *)
Definition check_nneg_float (value : float) : result float :=
  if float_leb 0 value then Return value else Raise ValueError.

(** ** Implausibility cut-offs: [Pipeline._get_impl_cut] *)

(** Body of [for i in range(1, len(impl_cut))]. *)
Definition impl_cut_step (impl_cut : list float) (i : nat)
  : result (list float) :=
  cur ← getitem impl_cut i;
  cur ← check_nneg_float cur;
  impl_cut ← setitem impl_cut i cur;
  prev ← getitem impl_cut (i - 1);
  if float_eqb cur 0 then setitem impl_cut i prev
  else if nonzero prev && float_gtb cur prev then Raise ValueError
  else Return impl_cut.

(** "Complete the impl_cut list". *)
Definition complete_impl_cut (impl_cut : list float) : result (list float) :=
  first ← getitem impl_cut 0;
  first ← check_nneg_float first;
  impl_cut ← setitem impl_cut 0 first;
  for_result impl_cut_step (seq 1 (length impl_cut - 1)) impl_cut.

(** "Get the index identifying where the first real impl_cut is":
    [for i, impl in enumerate(impl_cut)] with its [else] branch. *)
Fixpoint first_real_cut (i : nat) (impl_cut : list float) : result nat :=
  match impl_cut with
  | [] => Raise ValueError
  | impl :: rest => if nonzero impl then Return i else first_real_cut (S i) rest
  end.

(** The values [_get_impl_cut] stores: the full list and [cut_idx]. *)
Definition get_impl_cut (impl_cut : list float) : result (list float * nat) :=
  impl_cut ← complete_impl_cut impl_cut;
  cut_idx ← first_real_cut 0 impl_cut;
  Return (impl_cut, cut_idx).

(** The list a user writes with every wildcard after a resolved entry
    replaced by that entry: what the completion computes when it accepts. *)
Fixpoint inherit_from (prev : float) (rest : list float) : list float :=
  match rest with
  | [] => []
  | c :: rest' =>
      let c' := if float_eqb c 0 then prev else c in
      c' :: inherit_from c' rest'
  end.

Definition resolved (impl_cut : list float) : list float :=
  match impl_cut with
  | [] => []
  | c :: rest => c :: inherit_from c rest
  end.

(** The completion loop as a recursion on the entries still to be completed,
    [prev] being the completed entry before them. *)
Fixpoint complete_from (prev : float) (rest : list float)
  : result (list float) :=
  match rest with
  | [] => Return []
  | c :: rest' =>
      c ← check_nneg_float c;
      if float_eqb c 0 then l ← complete_from prev rest'; Return (prev :: l)
      else if nonzero prev && float_gtb c prev then Raise ValueError
      else l ← complete_from c rest'; Return (c :: l)
  end.

(** Once an entry is a real cut-off, the next one is a real cut-off and is
    not higher. *)
Definition inherits (impl_cut : list float) : Prop :=
  ∀ i x y, impl_cut !! i = Some x → impl_cut !! S i = Some y →
    ¬ x == 0 → ¬ y == 0 ∧ y <= x.

(** ** Implausibility check: [Pipeline._do_impl_check] *)

(** "Scan over all data points in this sample": the [for ... else] loop over
    [zip(sorted_impl_val, impl_cut)]; [false] is the early [return(0, ...)]. *)
Fixpoint impl_check_scan (pairs : list (float * float)) : bool :=
  match pairs with
  | [] => true
  | (impl_val, cut_val) :: rest =>
      if nonzero cut_val && float_gtb impl_val cut_val then false
      else impl_check_scan rest
  end.

Definition do_impl_check (impl_cut : list float) (cut_idx : nat)
  (uni_impl_val : list float) : result (bool * float) :=
  let sorted_impl_val := np_flip (np_sort uni_impl_val) in
  impl_cut_val ← getitem sorted_impl_val cut_idx;
  Return (impl_check_scan (zip sorted_impl_val impl_cut), impl_cut_val).

(** A pair of the scan that makes the check fail. *)
Definition exceeds (p : float * float) : bool :=
  nonzero p.2 && float_gtb p.1 p.2.


(** [try: body except handled: handler] on outcomes. *)
Definition try_result {A : Type} (body : result A) (handled : exn)
  (handler : result A) : result A :=
  match body with
  | Raise e => if decide (e = handled) then handler else Raise e
  | r => r
  end.

(** ** Collaborators of the pipeline *)

(** A parameter set: one row of a sample set. *)
Abbreviation sample := (list float) (only parsing).

(** The [data_idx] of a data point ([GaussianLink]: the integer [x]). *)
Abbreviation data_idx := Z (only parsing).

(** The [ModelLink] abstract base class: the attributes and the two
    user-written methods the pipeline uses.  [call_model] is called with a
    dict of parameter values, or (for a multi-call) of parameter columns. *)
Class ModelLink := {
  _n_par : nat;
  _par_name : list string;
  _par_rng : list (float * float);
  ml_n_data : nat;
  ml_data_idx : list data_idx;
  _MPI_call : bool;
  _multi_call : bool;
  call_model : nat → gmap string float → list data_idx → result (list float);
  multi_call_model :
    nat → gmap string (list float) → list data_idx → result (list (list float));
  get_md_var : nat → list data_idx → result (list float)
}.

(** [GaussianLink.get_md_var]: [pow(0.1*np.ones(len(data_idx)), 2)]. *)
Definition GaussianLink_get_md_var (emul_i : nat) (data_idx : list data_idx)
  : result (list float) :=
  Return ((λ one, pow2 (0.1 * one)) <$> replicate (length data_idx) 1).

(** Functions of the libraries the pipeline imports: [e13tools.sampling.lhd]
    (a Latin hypercube of [n_sam] samples avoiding [constraints]; the design
    it draws is an outcome the pipeline does not control) and [numpy.sqrt]. *)
Class Libraries := {
  lhd : nat → nat → list (float * float) → list sample → list sample;
  np_sqrt : float → float
}.

(** One group of the HDF5-file: the attributes and the data set the pipeline
    keeps for an emulator iteration, and the keys of its statistics. *)
Record Group := {
  attrs_impl_cut : option (list float);
  attrs_cut_idx : option nat;
  attrs_prc : option bool;
  attrs_n_impl_sam : option nat;
  attrs_n_eval_sam : option nat;
  dset_impl_sam : option (list sample);
  statistics : list string
}.

Definition empty_group : Group :=
  {| attrs_impl_cut := None; attrs_cut_idx := None; attrs_prc := None;
     attrs_n_impl_sam := None; attrs_n_eval_sam := None;
     dset_impl_sam := None; statistics := [] |}.

Definition set_attrs_impl_cut (v : list float) (g : Group) : Group :=
  {| attrs_impl_cut := Some v; attrs_cut_idx := attrs_cut_idx g;
     attrs_prc := attrs_prc g; attrs_n_impl_sam := attrs_n_impl_sam g;
     attrs_n_eval_sam := attrs_n_eval_sam g; dset_impl_sam := dset_impl_sam g;
     statistics := statistics g |}.

Definition set_attrs_cut_idx (v : nat) (g : Group) : Group :=
  {| attrs_impl_cut := attrs_impl_cut g; attrs_cut_idx := Some v;
     attrs_prc := attrs_prc g; attrs_n_impl_sam := attrs_n_impl_sam g;
     attrs_n_eval_sam := attrs_n_eval_sam g; dset_impl_sam := dset_impl_sam g;
     statistics := statistics g |}.

Definition set_attrs_prc (v : bool) (g : Group) : Group :=
  {| attrs_impl_cut := attrs_impl_cut g; attrs_cut_idx := attrs_cut_idx g;
     attrs_prc := Some v; attrs_n_impl_sam := attrs_n_impl_sam g;
     attrs_n_eval_sam := attrs_n_eval_sam g; dset_impl_sam := dset_impl_sam g;
     statistics := statistics g |}.

Definition set_attrs_n_impl_sam (v : nat) (g : Group) : Group :=
  {| attrs_impl_cut := attrs_impl_cut g; attrs_cut_idx := attrs_cut_idx g;
     attrs_prc := attrs_prc g; attrs_n_impl_sam := Some v;
     attrs_n_eval_sam := attrs_n_eval_sam g; dset_impl_sam := dset_impl_sam g;
     statistics := statistics g |}.

Definition set_attrs_n_eval_sam (v : nat) (g : Group) : Group :=
  {| attrs_impl_cut := attrs_impl_cut g; attrs_cut_idx := attrs_cut_idx g;
     attrs_prc := attrs_prc g; attrs_n_impl_sam := attrs_n_impl_sam g;
     attrs_n_eval_sam := Some v; dset_impl_sam := dset_impl_sam g;
     statistics := statistics g |}.

Definition set_dset_impl_sam (v : option (list sample)) (g : Group) : Group :=
  {| attrs_impl_cut := attrs_impl_cut g; attrs_cut_idx := attrs_cut_idx g;
     attrs_prc := attrs_prc g; attrs_n_impl_sam := attrs_n_impl_sam g;
     attrs_n_eval_sam := attrs_n_eval_sam g; dset_impl_sam := v;
     statistics := statistics g |}.

Definition add_statistics (keywords : list string) (g : Group) : Group :=
  {| attrs_impl_cut := attrs_impl_cut g; attrs_cut_idx := attrs_cut_idx g;
     attrs_prc := attrs_prc g; attrs_n_impl_sam := attrs_n_impl_sam g;
     attrs_n_eval_sam := attrs_n_eval_sam g; dset_impl_sam := dset_impl_sam g;
     statistics := statistics g ++ keywords |}.

Abbreviation hdf5 := (gmap nat Group) (only parsing).

(** The model realization data handed to [Emulator._save_data] under the
    keyword ['mod_real_set']: [[sam_set, mod_set, use_ext_real_set]]. *)
Record mod_real_set := {
  mrs_sam_set : list sample;
  mrs_mod_set : list (list float);
  mrs_use_ext_real_set : bool
}.

(** The [Emulator] class of [prism/emulator.py], an external collaborator:
    its state is abstract, read through the attributes the pipeline reads,
    and its methods are the ones the pipeline calls.  The methods that
    construct work on the emulator state and on the HDF5-file. *)
Class Emulator := {
  emulator : Type;
  _emul_i : emulator → nat;
  _emul_type : emulator → string;
  _ccheck : emulator → list (list string);
  _n_data : emulator → list nat;
  _data_val : emulator → list (list float);
  _data_err : emulator → list (list float);
  _data_idx : emulator → list (list data_idx);
  _sam_set : emulator → list (list sample);
  _get_emul_i : emulator → option Z → result nat;
  _evaluate : emulator → nat → sample → result (list float * list float);
  _create_new_emulator : emulator * hdf5 → (emulator * hdf5) * result ();
  _prepare_new_iteration : nat → emulator * hdf5 → (emulator * hdf5) * result bool;
  _construct_iteration : nat → emulator * hdf5 → (emulator * hdf5) * result ();
  emulator_save_data :
    nat → mod_real_set → emulator * hdf5 → (emulator * hdf5) * result ()
}.

(** What the pipeline does that an observer can see: log records, calls of
    the model, of the sampler and of the emulator, messages to workers. *)
Inductive event : Type :=
| LogInfo (logger msg : string)
| LogError (logger msg : string)
| CallModel (emul_i : nat) (par_set : sample)
| MultiCallModel (emul_i : nat) (sam_set : list sample)
| Lhd (n_sam : nat) (constraints : list sample)
| EmulEvaluate (emul_i : nat) (par_set : sample)
| EmulCall (method : string) (emul_i : nat)
| MpiSend (value : bool) (dest : nat)
| Details.

(** The data saved by [_save_data] under one keyword. *)
Inductive save_item : Type :=
| impl_cut_item (impl_cut : list float) (cut_idx : nat)
| impl_sam_item (impl_sam : list sample)
| n_eval_sam_item (n_eval_sam : nat)
| other_item (keyword : string).

Section PipelineClass.
Context `{ML : ModelLink} `{EM : Emulator} `{LIB : Libraries}.

(** ** The [Pipeline] object

    The per-iteration lists start with the placeholder [[]] at index 0
    ([None] where the entries are numbers).  [_prc] and [_impl_sam] do not
    exist before the first load or save ([None]).  [par_impl_cut] is the
    ['impl_cut'] entry of the PRISM parameters file, if there is one;
    [sigint] schedules the user's interrupt. *)
Record Pipeline := {
  _size : nat;
  _n_sam_init : nat;
  _base_eval_sam : nat;
  par_impl_cut : option (list float);
  _n_impl_sam : list (option nat);
  _impl_cut : list (list float);
  _cut_idx : list (option nat);
  _n_eval_sam : list (option nat);
  _prc : option bool;
  _impl_sam : option (list sample);
  _emulator : emulator;
  file : hdf5;
  log : list event;
  sigint : option nat
}.

Definition set_n_impl_sam (v : list (option nat)) (s : Pipeline) : Pipeline :=
  {| _size := _size s; _n_sam_init := _n_sam_init s;
     _base_eval_sam := _base_eval_sam s; par_impl_cut := par_impl_cut s;
     _n_impl_sam := v; _impl_cut := _impl_cut s; _cut_idx := _cut_idx s;
     _n_eval_sam := _n_eval_sam s; _prc := _prc s; _impl_sam := _impl_sam s;
     _emulator := _emulator s; file := file s; log := log s;
     sigint := sigint s |}.

Definition set_impl_cut (v : list (list float)) (s : Pipeline) : Pipeline :=
  {| _size := _size s; _n_sam_init := _n_sam_init s;
     _base_eval_sam := _base_eval_sam s; par_impl_cut := par_impl_cut s;
     _n_impl_sam := _n_impl_sam s; _impl_cut := v; _cut_idx := _cut_idx s;
     _n_eval_sam := _n_eval_sam s; _prc := _prc s; _impl_sam := _impl_sam s;
     _emulator := _emulator s; file := file s; log := log s;
     sigint := sigint s |}.

Definition set_cut_idx (v : list (option nat)) (s : Pipeline) : Pipeline :=
  {| _size := _size s; _n_sam_init := _n_sam_init s;
     _base_eval_sam := _base_eval_sam s; par_impl_cut := par_impl_cut s;
     _n_impl_sam := _n_impl_sam s; _impl_cut := _impl_cut s; _cut_idx := v;
     _n_eval_sam := _n_eval_sam s; _prc := _prc s; _impl_sam := _impl_sam s;
     _emulator := _emulator s; file := file s; log := log s;
     sigint := sigint s |}.

Definition set_n_eval_sam (v : list (option nat)) (s : Pipeline) : Pipeline :=
  {| _size := _size s; _n_sam_init := _n_sam_init s;
     _base_eval_sam := _base_eval_sam s; par_impl_cut := par_impl_cut s;
     _n_impl_sam := _n_impl_sam s; _impl_cut := _impl_cut s;
     _cut_idx := _cut_idx s; _n_eval_sam := v; _prc := _prc s;
     _impl_sam := _impl_sam s; _emulator := _emulator s; file := file s;
     log := log s; sigint := sigint s |}.

Definition set_prc (v : option bool) (s : Pipeline) : Pipeline :=
  {| _size := _size s; _n_sam_init := _n_sam_init s;
     _base_eval_sam := _base_eval_sam s; par_impl_cut := par_impl_cut s;
     _n_impl_sam := _n_impl_sam s; _impl_cut := _impl_cut s;
     _cut_idx := _cut_idx s; _n_eval_sam := _n_eval_sam s; _prc := v;
     _impl_sam := _impl_sam s; _emulator := _emulator s; file := file s;
     log := log s; sigint := sigint s |}.

Definition set_impl_sam (v : option (list sample)) (s : Pipeline) : Pipeline :=
  {| _size := _size s; _n_sam_init := _n_sam_init s;
     _base_eval_sam := _base_eval_sam s; par_impl_cut := par_impl_cut s;
     _n_impl_sam := _n_impl_sam s; _impl_cut := _impl_cut s;
     _cut_idx := _cut_idx s; _n_eval_sam := _n_eval_sam s; _prc := _prc s;
     _impl_sam := v; _emulator := _emulator s; file := file s;
     log := log s; sigint := sigint s |}.

Definition set_emulator_file (v : emulator * hdf5) (s : Pipeline) : Pipeline :=
  {| _size := _size s; _n_sam_init := _n_sam_init s;
     _base_eval_sam := _base_eval_sam s; par_impl_cut := par_impl_cut s;
     _n_impl_sam := _n_impl_sam s; _impl_cut := _impl_cut s;
     _cut_idx := _cut_idx s; _n_eval_sam := _n_eval_sam s; _prc := _prc s;
     _impl_sam := _impl_sam s; _emulator := v.1; file := v.2;
     log := log s; sigint := sigint s |}.

Definition set_file (v : hdf5) (s : Pipeline) : Pipeline :=
  set_emulator_file (_emulator s, v) s.

Definition set_log (v : list event) (s : Pipeline) : Pipeline :=
  {| _size := _size s; _n_sam_init := _n_sam_init s;
     _base_eval_sam := _base_eval_sam s; par_impl_cut := par_impl_cut s;
     _n_impl_sam := _n_impl_sam s; _impl_cut := _impl_cut s;
     _cut_idx := _cut_idx s; _n_eval_sam := _n_eval_sam s; _prc := _prc s;
     _impl_sam := _impl_sam s; _emulator := _emulator s; file := file s;
     log := v; sigint := sigint s |}.

Definition set_sigint (v : option nat) (s : Pipeline) : Pipeline :=
  {| _size := _size s; _n_sam_init := _n_sam_init s;
     _base_eval_sam := _base_eval_sam s; par_impl_cut := par_impl_cut s;
     _n_impl_sam := _n_impl_sam s; _impl_cut := _impl_cut s;
     _cut_idx := _cut_idx s; _n_eval_sam := _n_eval_sam s; _prc := _prc s;
     _impl_sam := _impl_sam s; _emulator := _emulator s; file := file s;
     log := log s; sigint := v |}.

(** ** The monad of the methods: state passing with exceptions *)

Definition M (A : Type) : Type := Pipeline → Pipeline * result A.

#[global] Instance M_ret : MRet M := λ A a s, (s, Return a).
#[global] Instance M_bind : MBind M := λ A B f m s,
  match m s with
  | (s', Return a) => f a s'
  | (s', Raise e) => (s', Raise e)
  end.

Definition raise {A : Type} (e : exn) : M A := λ s, (s, Raise e).
Definition lift {A : Type} (r : result A) : M A := λ s, (s, r).
Definition gets {A : Type} (f : Pipeline → A) : M A := λ s, (s, Return (f s)).
Definition modify (f : Pipeline → Pipeline) : M () := λ s, (f s, Return ()).

(** [try: body except handled: handler else: orelse]. *)
Definition try_except_else {A B : Type} (body : M A) (handled : exn)
  (handler : M B) (orelse : A → M B) : M B := λ s,
  match body s with
  | (s', Return a) => orelse a s'
  | (s', Raise e) => if decide (e = handled) then handler s' else (s', Raise e)
  end.

(** [try: body except handled: handler]. *)
Definition try_except {A : Type} (body : M A) (handled : exn) (handler : M A)
  : M A :=
  try_except_else body handled handler mret.

(** [try: body finally: final]: [final] runs whatever the outcome of [body];
    an exception of [final] replaces that outcome. *)
Definition try_finally {A : Type} (body : M A) (final : M ()) : M A := λ s,
  match body s with
  | (s', r) =>
      match final s' with
      | (s'', Return _) => (s'', r)
      | (s'', Raise e) => (s'', Raise e)
      end
  end.

(** A [for] loop whose body has no result. *)
Fixpoint for_each {A : Type} (l : list A) (body : A → M ()) : M () :=
  match l with
  | [] => mret ()
  | x :: l' => body x;; for_each l' body
  end.

Definition emit (e : event) : M () := modify (λ s, set_log (log s ++ [e]) s).

(** A pending [KeyboardInterrupt] is delivered at the calls of the sampler,
    of the emulator and of the model, the long-running steps of a pass:
    [sigint = Some k] lets [k] of them go by and interrupts the next. *)
Definition check_signals : M () := λ s,
  match sigint s with
  | None => (s, Return ())
  | Some 0%nat => (set_sigint None s, Raise KeyboardInterrupt)
  | Some (S k) => (set_sigint (Some k) s, Return ())
  end.

(** A call of a method of the emulator that works on its state and on the
    HDF5-file. *)
Definition emulator_call {A : Type} (method : string) (emul_i : nat)
  (f : emulator * hdf5 → (emulator * hdf5) * result A) : M A := λ s,
  let s := set_log (log s ++ [EmulCall method emul_i]) s in
  match f (_emulator s, file s) with
  | (ef, r) => (set_emulator_file ef s, r)
  end.

(** ** The HDF5-file (h5py) *)

(** [file['%s' % (emul_i)]]: a missing group raises [KeyError]. *)
Definition file_group (emul_i : nat) : M Group :=
  f ← gets file;
  match f !! emul_i with
  | Some g => mret g
  | None => raise KeyError
  end.

(** [file['%s' % (emul_i)].attrs[...] = ...] and other writes in a group. *)
Definition update_group (emul_i : nat) (upd : Group → Group) : M () :=
  g ← file_group emul_i;
  modify (λ s, set_file (<[emul_i := upd g]> (file s)) s).

(** [file.create_dataset('%s/impl_sam' % (emul_i), data=data)]: the group is
    created with the data set if it is missing; an existing data set of that
    name makes h5py raise. *)
Definition create_dataset_impl_sam (emul_i : nat) (data : list sample) : M () :=
  f ← gets file;
  let g := default empty_group (f !! emul_i) in
  match dset_impl_sam g with
  | Some _ => raise RuntimeError
  | None =>
      modify (λ s, set_file (<[emul_i := set_dset_impl_sam (Some data) g]> (file s)) s)
  end.

(** [del file['%s/impl_sam' % (emul_i)]]. *)
Definition del_dataset_impl_sam (emul_i : nat) : M () :=
  g ← file_group emul_i;
  match dset_impl_sam g with
  | Some _ => update_group emul_i (set_dset_impl_sam None)
  | None => raise KeyError
  end.

(** ** [Pipeline._save_data] *)

(** [l[emul_i] = x] on an attribute of the pipeline. *)
Definition assign_item {A : Type} (get : Pipeline → list A)
  (set : list A → Pipeline → Pipeline) (emul_i : nat) (x : A) : M () :=
  l ← gets get;
  l' ← lift (setitem l emul_i x);
  modify (set l').

(** [l.append(x)] on an attribute of the pipeline. *)
Definition append_item {A : Type} (get : Pipeline → list A)
  (set : list A → Pipeline → Pipeline) (x : A) : M () :=
  modify (λ s, set (get s ++ [x]) s).

(** The branch of one keyword at emulator iteration [emul_i]. *)
Definition save_item_at (emul_i : nat) (item : save_item) : M () :=
  match item with
  | impl_cut_item impl_cut cut_idx =>
      try_finally
        (try_except
           (assign_item _impl_cut set_impl_cut emul_i impl_cut;;
            assign_item _cut_idx set_cut_idx emul_i (Some cut_idx))
           IndexError
           (append_item _impl_cut set_impl_cut impl_cut;;
            append_item _cut_idx set_cut_idx (Some cut_idx)))
        (update_group emul_i (set_attrs_impl_cut impl_cut);;
         update_group emul_i (set_attrs_cut_idx cut_idx))
  | impl_sam_item data =>
      let n_impl_sam := length data in
      let prc := if decide (n_impl_sam ≠ 0)%nat then true else false in
      try_finally
        (try_except_else
           (assign_item _n_impl_sam set_n_impl_sam emul_i (Some n_impl_sam))
           IndexError
           (create_dataset_impl_sam emul_i data;;
            append_item _n_impl_sam set_n_impl_sam (Some n_impl_sam))
           (λ _, del_dataset_impl_sam emul_i;;
                 create_dataset_impl_sam emul_i data))
        (modify (set_prc (Some prc));;
         modify (set_impl_sam (Some data));;
         update_group emul_i (set_attrs_prc prc);;
         update_group emul_i (set_attrs_n_impl_sam n_impl_sam))
  | n_eval_sam_item data =>
      try_finally
        (try_except
           (assign_item _n_eval_sam set_n_eval_sam emul_i (Some data))
           IndexError
           (append_item _n_eval_sam set_n_eval_sam (Some data)))
        (update_group emul_i (set_attrs_n_eval_sam data))
  | other_item _ =>
      emit (LogError "SAVE_DATA" "Invalid keyword argument provided!");;
      raise ValueError
  end.

(** [_save_data(data_dict)]: saves at the last emulator iteration. *)
Definition _save_data (data_dict : list save_item) : M () :=
  emul_i ← gets (λ s, _emul_i (_emulator s));
  for_each data_dict (λ item,
    emit (LogInfo "SAVE_DATA" "Saving data to HDF5.");;
    save_item_at emul_i item).

(** ** [Pipeline._save_statistics]

    The values are wall-clock readings; the file keeps the keywords. *)
Definition _save_statistics (emul_i : nat) (keywords : list string) : M () :=
  emit (LogInfo "STATISTICS" "Saving statistics to HDF5.");;
  update_group emul_i (add_statistics keywords).

(** ** [Pipeline._get_impl_cut] and [Pipeline._get_impl_par] *)

Definition _get_impl_cut (impl_cut : list float) (temp : bool) : M () :=
  emit (LogInfo "INIT" "Generating full implausibility cut-off list.");;
  r ← lift (get_impl_cut impl_cut);
  (if temp
   then append_item _impl_cut set_impl_cut r.1;;
        append_item _cut_idx set_cut_idx (Some r.2)
   else _save_data [impl_cut_item r.1 r.2]);;
  emit (LogInfo "INIT" "Finished generating implausibility cut-off list.").

(** ['impl_cut'] of [_get_default_parameters]: ['[0, 4.0, 3.8, 3.5]']. *)
Definition default_impl_cut : list float := [0; 4.0; 3.8; 3.5].

Definition _get_impl_par (temp : bool) : M () :=
  emit (LogInfo "INIT" "Obtaining implausibility analysis parameters.");;
  par ← gets par_impl_cut;
  _get_impl_cut (default default_impl_cut par) temp;;
  emit (LogInfo "INIT" "Finished obtaining implausibility analysis parameters.").

(** ** [Pipeline._load_data] *)

(** [emul.attrs[...]] read from a group: a missing attribute raises
    [KeyError]. *)
Definition read_attr {A : Type} (a : option A) : M A :=
  match a with
  | Some v => mret v
  | None => raise KeyError
  end.

Definition load_iteration (i : nat) : M Group :=
  emul ← file_group i;
  try_finally
    (try_except_else
       (impl_cut ← read_attr (attrs_impl_cut emul);
        append_item _impl_cut set_impl_cut impl_cut)
       KeyError
       (_get_impl_par true)
       (λ _, cut_idx ← read_attr (attrs_cut_idx emul);
             append_item _cut_idx set_cut_idx (Some cut_idx)))
    (n_impl_sam ← read_attr (attrs_n_impl_sam emul);
     append_item _n_impl_sam set_n_impl_sam (Some n_impl_sam);;
     n_eval_sam ← read_attr (attrs_n_eval_sam emul);
     append_item _n_eval_sam set_n_eval_sam (Some n_eval_sam));;
  mret emul.

(** The loop [for i in range(1, emul_i+1)]; its result is the last [emul]. *)
Fixpoint load_iterations (l : list nat) (emul : Group) : M Group :=
  match l with
  | [] => mret emul
  | i :: l' => emul ← load_iteration i; load_iterations l' emul
  end.

Definition _load_data : M () :=
  emit (LogInfo "LOAD_DATA" "Initializing pipeline data sets.");;
  modify (set_n_impl_sam [None]);;
  modify (set_impl_cut [[]]);;
  modify (set_cut_idx [None]);;
  modify (set_n_eval_sam [None]);;
  emul_i ← gets (λ s, _emul_i (_emulator s));
  if decide (emul_i = 0)%nat then mret ()
  else
    emul ← load_iterations (seq 1 emul_i) empty_group;
    prc ← read_attr (attrs_prc emul);
    modify (set_prc (Some prc));;
    impl_sam ← read_attr (dset_impl_sam emul);
    modify (set_impl_sam (Some impl_sam)).

(** ** Model discrepancy variance and univariate implausibility *)

(** [_get_md_var(emul_i)]: the variances of the [ModelLink], or the default
    of 1/6th of the data value squared when [get_md_var] is not
    implemented. *)
Definition _get_md_var (em : emulator) (emul_i : nat) : result (list float) :=
  md_var ← try_result
    (data_idx ← getitem (_data_idx em) emul_i;
     get_md_var emul_i data_idx)
    NotImplementedError
    (data_val ← getitem (_data_val em) emul_i;
     Return ((λ v, pow2 (v / 6)) <$> (data_val : list float)));
  for_result (λ (_ : ()) value, check_nneg_float value ≫= λ _, Return ())
    md_var ();;
  Return md_var.

(** One pass of the loop of [_get_uni_impl] over the data points. *)
Definition uni_impl_sq_step (em : emulator) (emul_i : nat)
  (adj_exp_val adj_var_val md_var : list float)
  (uni_impl_val_sq : list float) (i : nat) : result (list float) :=
  adj_exp ← getitem adj_exp_val i;
  data_val ← getitem (_data_val em) emul_i;
  data_val ← getitem data_val i;
  adj_var ← getitem adj_var_val i;
  md ← getitem md_var i;
  data_err ← getitem (_data_err em) emul_i;
  data_err ← getitem data_err i;
  setitem uni_impl_val_sq i
    (pow2 (adj_exp - data_val) / (adj_var + md + pow2 data_err)).

(** [_get_uni_impl(emul_i, adj_exp_val, adj_var_val)]. *)
Definition _get_uni_impl (em : emulator) (emul_i : nat)
  (adj_exp_val adj_var_val : list float) : result (list float) :=
  md_var ← _get_md_var em emul_i;
  n_data ← getitem (_n_data em) emul_i;
  uni_impl_val_sq ←
    for_result (uni_impl_sq_step em emul_i adj_exp_val adj_var_val md_var)
      (seq 0 n_data) (replicate n_data 0);
  Return (np_sqrt <$> (uni_impl_val_sq : list float)).

(** [_do_impl_check(obj, emul_i, uni_impl_val)]: the cut-offs of iteration
    [emul_i] are read from [obj].  Iterations are counted from 1; with the
    placeholder of index 0, numpy selects no value at all, which is no
    float, and the model stops with [TypeError] there. *)
Definition _do_impl_check (obj : Pipeline) (emul_i : nat)
  (uni_impl_val : list float) : result (bool * float) :=
  cut_idx ← getitem (_cut_idx obj) emul_i;
  match cut_idx with
  | None => Raise TypeError
  | Some cut_idx =>
      let sorted_impl_val := np_flip (np_sort uni_impl_val) in
      impl_cut_val ← getitem sorted_impl_val cut_idx;
      impl_cut ← getitem (_impl_cut obj) emul_i;
      Return (impl_check_scan (zip sorted_impl_val impl_cut), impl_cut_val)
  end.

(** ** Evaluation samples *)

Definition _get_n_eval_sam (base_eval_sam emul_i : nat) : nat :=
  (emul_i * base_eval_sam * _n_par)%nat.

Definition _get_eval_sam_set (emul_i : nat) : M (list sample) :=
  base ← gets _base_eval_sam;
  let n_eval_sam := _get_n_eval_sam base emul_i in
  emit (LogInfo "EVAL_SAMS" "Creating emulator evaluation sample set.");;
  em ← gets _emulator;
  constraints ← lift (getitem (_sam_set em) emul_i);
  check_signals;;
  emit (Lhd n_eval_sam constraints);;
  let eval_sam_set := lhd n_eval_sam _n_par _par_rng constraints in
  emit (LogInfo "EVAL_SAMS" "Finished creating sample set.");;
  mret eval_sam_set.

(** ** Model evaluation *)

(** [dict(zip(keys, values))]: a later pair overrides an earlier one. *)
Definition dict_zip {V : Type} (keys : list string) (values : list V)
  : gmap string V :=
  foldl (λ d kv, <[kv.1 := kv.2]> d) ∅ (zip keys values).

(** [sam_set.T]: the columns of a sample set. *)
Definition columns (rows : list (list float)) : list (list float) :=
  match rows with
  | [] => []
  | r :: _ => (λ j, (λ row, default 0 (row !! j)) <$> rows) <$> seq 0 (length r)
  end.

Definition _call_model (emul_i : nat) (par_set : sample) : M (list float) :=
  emit (LogInfo "CALL_MODEL" "Calling model.");;
  check_signals;;
  emit (CallModel emul_i par_set);;
  mod_out ← lift (call_model emul_i (dict_zip _par_name par_set) ml_data_idx);
  emit (LogInfo "CALL_MODEL" "Model returned.");;
  mret mod_out.

Definition _multi_call_model (emul_i : nat) (sam_set : list sample)
  : M (list (list float)) :=
  emit (LogInfo "CALL_MODEL" "Multi-calling model.");;
  check_signals;;
  emit (MultiCallModel emul_i sam_set);;
  mod_set ← lift (multi_call_model emul_i
                    (dict_zip _par_name (columns sam_set)) ml_data_idx);
  emit (LogInfo "CALL_MODEL" "Finished model multi-call.");;
  mret mod_set.

(** The loop [for i in range(n_sam): mod_set[:, i] = ...]; [mod_set] is kept
    by columns, one model output per sample. *)
Fixpoint call_model_each (emul_i : nat) (sam_set : list sample)
  : M (list (list float)) :=
  match sam_set with
  | [] => mret []
  | par_set :: rest =>
      mod_out ← _call_model emul_i par_set;
      mod_set ← call_model_each emul_i rest;
      mret (mod_out :: mod_set)
  end.

(** [_evaluate_model(emul_i, sam_set, ext_sam_set, ext_mod_set)]. *)
Definition _evaluate_model (emul_i : nat) (sam_set ext_sam_set : list sample)
  (ext_mod_set : list (list float)) : M () :=
  emit (LogInfo "MODEL" "Evaluating model samples.");;
  let n_sam := length sam_set in
  mod_set ← (if _multi_call then _multi_call_model emul_i sam_set
             else call_model_each emul_i sam_set);
  let real_set :=
    if decide (length ext_sam_set ≠ 0)%nat
    then {| mrs_sam_set := sam_set ++ ext_sam_set;
            mrs_mod_set := mod_set ++ ext_mod_set;
            mrs_use_ext_real_set := true |}
    else {| mrs_sam_set := sam_set; mrs_mod_set := mod_set;
            mrs_use_ext_real_set := false |} in
  em ← gets _emulator;
  (if decide (emul_i = 1%nat ∨ _emul_type em = "default")
   then emulator_call "_save_data" emul_i (emulator_save_data emul_i real_set)
   else raise NotImplementedError);;
  (if decide (n_sam = 0)%nat then raise ZeroDivisionError else mret ());;
  _save_statistics emul_i
    ["tot_model_eval_time"; "avg_model_eval_time"; "MPI_comm_size_model"];;
  emit (LogInfo "MODEL" "Finished evaluating model samples.").

(** ** Externally provided model realizations: [_get_ext_real_set] *)

(** [np.array(a, ndmin=2).shape[1]] *)
Definition shape1 (rows : list (list float)) : nat :=
  match rows with
  | [] => 0%nat
  | r :: _ => length r
  end.

(** [((lower_bnd <= par_set)*(par_set <= upper_bnd)).all()] *)
Definition within_par_rng (par_set : sample) : bool :=
  forallb (λ p, float_leb p.1.1 p.2 && float_leb p.2 p.1.2)
    (zip _par_rng par_set).

(** The argument is the pair of arrays a list or a dict provides. *)
Definition _get_ext_real_set
  (ext_real_set : option (list sample * list (list float)))
  : M (list sample * list (list float)) :=
  match ext_real_set with
  | None => mret ([], [])
  | Some (ext_sam_set, ext_mod_set) =>
      emit (LogInfo "INIT" "Processing externally provided model realization set.");;
      (if decide (shape1 ext_sam_set = _n_par) then mret ()
       else emit (LogError "INIT" "External sample set has incorrect number of parameters!");;
            raise ShapeError);;
      (if decide (shape1 ext_mod_set = ml_n_data) then mret ()
       else emit (LogError "INIT" "External model output set has incorrect number of data values!");;
            raise ShapeError);;
      (if decide (length ext_sam_set = length ext_mod_set) then mret ()
       else emit (LogError "INIT" "External sample and model output sets do not contain the same number of samples!"));;
      for_each ext_sam_set (λ par_set,
        if within_par_rng par_set then mret ()
        else emit (LogError "INIT" "External sample set contains a sample outside of parameter space!");;
             raise ValueError);;
      emit (LogInfo "INIT" "Finished processing externally provided model realization set.");;
      mret (ext_sam_set, ext_mod_set)
  end.

(** ** [Pipeline.details]: the printed report; it changes nothing. *)
Definition details (emul_i : option nat) : M () := emit Details.

(** ** [Pipeline.analyze] *)

(** The body of the inner loop of [analyze] as a function of the pipeline:
    "Obtain implausibility" and "Do implausibility cut-off check". *)
Definition impl_check_at (obj : Pipeline) (j : nat) (par_set : sample)
  : result (bool * float) :=
  adj_val ← _evaluate (_emulator obj) j par_set;
  uni_impl_val ← _get_uni_impl (_emulator obj) j adj_val.1 adj_val.2;
  _do_impl_check obj j uni_impl_val.

(** The inner loop [for j in range(1, emul_i+1)] with its [else] branch:
    [true] when the loop ended without [break]. *)
Fixpoint analyze_sample (iterations : list nat) (par_set : sample) : M bool :=
  match iterations with
  | [] => mret true
  | j :: rest =>
      check_signals;;
      emit (EmulEvaluate j par_set);;
      obj ← gets id;
      check ← lift (impl_check_at obj j par_set);
      if check.1 : bool then analyze_sample rest par_set else mret false
  end.

(** The outer loop [for i, par_set in enumerate(eval_sam_set)]. *)
Fixpoint analyze_samples (emul_i i : nat) (eval_sam_set : list sample)
  (impl_idx : list nat) : M (list nat) :=
  match eval_sam_set with
  | [] => mret impl_idx
  | par_set :: rest =>
      passed ← analyze_sample (seq 1 emul_i) par_set;
      analyze_samples emul_i (S i) rest
        (if passed : bool then impl_idx ++ [i] else impl_idx)
  end.

(** [eval_sam_set[impl_idx]] *)
Definition take_rows (sam_set : list sample) (idx : list nat) : list sample :=
  omap (λ i, sam_set !! i) idx.

(** The [try] block of [analyze]. *)
Definition analyze_try (emul_i : nat) : M (nat * list nat) :=
  eval_sam_set ← _get_eval_sam_set emul_i;
  let n_eval_sam := length eval_sam_set in
  em ← gets _emulator;
  impl_idx ← (if decide (_emul_type em = "default")
              then analyze_samples emul_i 0 eval_sam_set []
              else raise NotImplementedError);
  _save_data [impl_sam_item (take_rows eval_sam_set impl_idx);
              n_eval_sam_item n_eval_sam];;
  mret (n_eval_sam, impl_idx).

Definition interrupted_msg : string :=
  "Emulator system analysis has been interrupted by user.".

(** [analyze] up to its [try] statement: "Get emul_i" and "Get the impl_cut
    list". *)
Definition analyze_begin : M nat :=
  em ← gets _emulator;
  emul_i ← lift (_get_emul_i em None);
  emit (LogInfo "ANALYZE" "Analyzing emulator system.");;
  _get_impl_par false;;
  mret emul_i.

Definition analyze : M () :=
  emul_i ← analyze_begin;
  try_except_else (analyze_try emul_i)
    KeyboardInterrupt
    (emit (LogInfo "ANALYZE" interrupted_msg))
    (λ r,
      (if decide ((r.1 : nat) = 0)%nat then raise ZeroDivisionError else mret ());;
      _save_statistics emul_i
        ["tot_analyze_time"; "avg_emul_eval_rate"; "par_space_remaining";
         "MPI_comm_size_anal"];;
      emit (LogInfo "ANALYZE" "Finished analysis of emulator system."));;
  details None.

(** ** [Pipeline.construct] *)

(** [not self._n_eval_sam[emul_i-1]] *)
Definition not_analyzed (n_eval_sam : option nat) : bool :=
  match n_eval_sam with
  | Some (S _) => false
  | _ => true
  end.

(** "Check if iteration was interrupted or not, or if force is True". *)
Definition check_state (emul_i : nat) (force : bool) : M bool :=
  emit (LogInfo "CONSTRUCT" "Checking state of emulator iteration.");;
  try_except
    (if force
     then emit (LogInfo "CONSTRUCT" "Emulator iteration has been requested to be reconstructed.");;
          mret true
     else
       em ← gets _emulator;
       ccheck ← lift (getitem (_ccheck em) emul_i);
       if bool_decide ("mod_real_set" ∈ ccheck)
       then emit (LogInfo "CONSTRUCT" "Emulator iteration does not contain evaluated model realization data. Will be constructed from start.");;
            mret true
       else emit (LogInfo "CONSTRUCT" "Construction of emulator iteration was interrupted. Continuing from point of interruption.");;
            mret false)
    IndexError
    (emit (LogInfo "CONSTRUCT" "Emulator iteration has not been constructed.");;
     mret true).

(** The controller's part of [if c_from_start:] for the first iteration. *)
Definition start_first_iteration
  (ext_init_set : option (list sample * list (list float)))
  : M (option (list sample) * list sample * list (list float)) :=
  ext ← _get_ext_real_set ext_init_set;
  let n_ext_sam := length ext.1 in
  emulator_call "_create_new_emulator" 1 _create_new_emulator;;
  _load_data;;
  n ← gets _n_sam_init;
  let n_sam_init := (n - n_ext_sam)%nat in
  add_sam_set ←
    (if decide (n_sam_init ≠ 0)%nat
     then emit (LogInfo "CONSTRUCT" "Creating initial model evaluation sample set.");;
          check_signals;;
          emit (Lhd n_sam_init ext.1);;
          emit (LogInfo "CONSTRUCT" "Finished creating initial sample set.");;
          mret (Some (lhd n_sam_init _n_par _par_rng ext.1))
     else mret None);
  mret (add_sam_set, ext.1, ext.2).

(** The controller's part of [if c_from_start:] for a later iteration. *)
Definition start_next_iteration (emul_i : nat)
  : M (option (list sample) * list sample * list (list float)) :=
  ext ← _get_ext_real_set None;
  n_eval_sam ← gets _n_eval_sam;
  n ← lift (getitem n_eval_sam (emul_i - 1));
  size ← gets _size;
  (if not_analyzed n : bool
   then for_each (seq 1 (size - 1)) (λ rank, emit (MpiSend true rank));;
        emit (LogInfo "CONSTRUCT" "Previous emulator iteration has not been analyzed. Performing analysis first.");;
        analyze
   else for_each (seq 1 (size - 1)) (λ rank, emit (MpiSend false rank)));;
  prc ← gets _prc;
  match (prc : option bool) with
  | None => raise AttributeError
  | Some false =>
      emit (LogError "CONSTRUCT" "No plausible regions were found in the analysis of the previous emulator iteration. Construction is not possible!");;
      raise RequestError
  | Some true =>
      reload ← emulator_call "_prepare_new_iteration" emul_i
                 (_prepare_new_iteration emul_i);
      (if reload : bool then _load_data else mret ());;
      impl_sam ← gets _impl_sam;
      match (impl_sam : option (list sample)) with
      | None => raise AttributeError
      | Some add_sam_set => mret (Some add_sam_set, ext.1, ext.2)
      end
  end.

(** [if c_from_start:] up to and including [_evaluate_model]. *)
Definition construct_from_start (emul_i : nat)
  (ext_init_set : option (list sample * list (list float))) : M () :=
  emit (LogInfo "CONSTRUCT" "Starting construction of emulator iteration.");;
  sets ← (if decide (emul_i = 1)%nat then start_first_iteration ext_init_set
          else start_next_iteration emul_i);
  match (sets.1.1 : option (list sample)) with
  | None => raise UnboundLocalError
  | Some add_sam_set => _evaluate_model emul_i add_sam_set sets.1.2 sets.2
  end.

(** What [construct] does once [emul_i] and [c_from_start] are known. *)
Definition construct_iteration (emul_i : nat) (c_from_start do_analyze : bool)
  (ext_init_set : option (list sample * list (list float))) : M () :=
  (if c_from_start : bool then construct_from_start emul_i ext_init_set else mret ());;
  emulator_call "_construct_iteration" emul_i (_construct_iteration emul_i);;
  _save_data [impl_sam_item []; n_eval_sam_item 0];;
  _save_statistics emul_i ["tot_construct_time"];;
  emit (LogInfo "CONSTRUCT" "Finished construction of emulator system.");;
  if do_analyze then analyze
  else _get_impl_par true;; details (Some emul_i).

(** "Set emul_i correctly". *)
Definition resolve_emul_i (emul_i : option nat) : M nat :=
  em ← gets _emulator;
  match emul_i with
  | None => mret (_emul_i em + 1)%nat
  | Some 1%nat => mret 1%nat
  | Some i => prev ← lift (_get_emul_i em (Some (Z.of_nat i - 1)%Z));
              mret (prev + 1)%nat
  end.

(** [construct(emul_i, analyze, ext_init_set, force)]. *)
Definition construct (emul_i : option nat) (do_analyze : bool)
  (ext_init_set : option (list sample * list (list float))) (force : bool)
  : M () :=
  emul_i ← resolve_emul_i emul_i;
  c_from_start ← check_state emul_i force;
  construct_iteration emul_i c_from_start do_analyze ext_init_set.

(** ** Notions used to state the properties *)

(** The pipeline without its log and without the pending interrupt: the
    attributes, the emulator and the HDF5-file. *)
Definition data_of (s : Pipeline) : Pipeline := set_log [] (set_sigint None s).

Definition same_data (s s' : Pipeline) : Prop := data_of s' = data_of s.

(** The value of [c_from_start] that [construct] computes. *)
Definition c_from_start (em : emulator) (emul_i : nat) (force : bool) : bool :=
  force ||
  match _ccheck em !! emul_i with
  | Some ccheck => bool_decide ("mod_real_set" ∈ ccheck)
  | None => true
  end.

(** The sample [par_set] passes the cut-off check of iteration [j]. *)
Definition passes_at (obj : Pipeline) (par_set : sample) (j : nat) : bool :=
  match impl_check_at obj j par_set with
  | Return (true, _) => true
  | _ => false
  end.

(** The iterations at which [analyze] evaluates [par_set]: those up to and
    including the first one whose check fails. *)
Fixpoint evaluated_at (obj : Pipeline) (par_set : sample) (iterations : list nat)
  : list nat :=
  match iterations with
  | [] => []
  | j :: rest =>
      j :: (if passes_at obj par_set j then evaluated_at obj par_set rest else [])
  end.

(** The indices, counted from [i], of the samples that pass every check. *)
Fixpoint passing_idx (obj : Pipeline) (emul_i i : nat) (sam_set : list sample)
  : list nat :=
  match sam_set with
  | [] => []
  | par_set :: rest =>
      if forallb (passes_at obj par_set) (seq 1 emul_i)
      then i :: passing_idx obj emul_i (S i) rest
      else passing_idx obj emul_i (S i) rest
  end.

(** The emulator evaluations recorded in a log, in order. *)
Definition emul_evaluations (events : list event) : list (nat * sample) :=
  omap (λ e, match e with
             | EmulEvaluate j par_set => Some (j, par_set)
             | _ => None
             end) events.

Definition is_emul_evaluate (e : event) : bool :=
  match e with
  | EmulEvaluate _ _ => true
  | _ => false
  end.

(** The events only a construction from the start produces: the calls of the
    model and of the emulator methods that create or reset an iteration and
    store its model realizations. *)
Definition from_start_event (e : event) : bool :=
  match e with
  | CallModel _ _ | MultiCallModel _ _ => true
  | LogInfo logger _ => bool_decide (logger = "MODEL" ∨ logger = "CALL_MODEL")
  | EmulCall method _ =>
      bool_decide (method = "_create_new_emulator" ∨
                   method = "_prepare_new_iteration" ∨ method = "_save_data")
  | _ => false
  end.

(** The HDF5-file without the cut-offs of its groups. *)
Definition forget_cuts (g : Group) : Group :=
  {| attrs_impl_cut := None; attrs_cut_idx := None;
     attrs_prc := attrs_prc g; attrs_n_impl_sam := attrs_n_impl_sam g;
     attrs_n_eval_sam := attrs_n_eval_sam g; dset_impl_sam := dset_impl_sam g;
     statistics := statistics g |}.

(** [s'] differs from [s] at most in the log, the pending interrupt and the
    implausibility cut-offs (in memory and in the file). *)
Definition same_but_cuts (s s' : Pipeline) : Prop :=
  _size s' = _size s ∧ _n_sam_init s' = _n_sam_init s ∧
  _base_eval_sam s' = _base_eval_sam s ∧ par_impl_cut s' = par_impl_cut s ∧
  _n_impl_sam s' = _n_impl_sam s ∧ _n_eval_sam s' = _n_eval_sam s ∧
  _prc s' = _prc s ∧ _impl_sam s' = _impl_sam s ∧
  _emulator s' = _emulator s ∧
  forget_cuts <$> file s' = forget_cuts <$> file s.

(** [s'] has the plausible samples of [s], their counts and the flag [prc],
    in memory and in every group of the file. *)
Definition impl_sam_of (g : Group) : option bool * option nat * option (list sample) :=
  (attrs_prc g, attrs_n_impl_sam g, dset_impl_sam g).

Definition same_impl_sam (s s' : Pipeline) : Prop :=
  _n_impl_sam s' = _n_impl_sam s ∧ _prc s' = _prc s ∧
  _impl_sam s' = _impl_sam s ∧
  impl_sam_of <$> file s' = impl_sam_of <$> file s.

(** [s'] has the log of [s] followed by events that are not of the kind
    [P]. *)
Definition emits_no (P : event → bool) (s s' : Pipeline) : Prop :=
  ∃ events, log s' = log s ++ events ∧ Forall (λ e, P e = false) events.

(** [s'] has the emulator of [s]. *)
Definition same_emulator (s s' : Pipeline) : Prop :=
  _emulator s' = _emulator s.

(** The log only grows. *)
Definition log_grows (s s' : Pipeline) : Prop :=
  ∃ events, log s' = log s ++ events.

(** Every run of [m] takes a state to one related to it by [R]. *)
Definition steps (R : relation Pipeline) {A : Type} (m : M A) : Prop :=
  ∀ s, R s (m s).1.

(** Every run of [m] that raises [e] takes a state to one related by [R]. *)
Definition steps_on (e : exn) (R : relation Pipeline) {A : Type} (m : M A)
  : Prop :=
  ∀ s, (m s).2 = Raise e → R s (m s).1.

(** [m] never raises [e]. *)
Definition never_raises (e : exn) {A : Type} (m : M A) : Prop :=
  ∀ s, (m s).2 ≠ Raise e.

End PipelineClass.

(** A run that produces none of the events of a construction from the
    start. *)
Abbreviation resumes := (emits_no from_start_event).

(** ** A small pipeline, for the examples

    A model of one parameter [A] and one data point whose observed value is
    1, without [get_md_var]; an emulator that predicts [j * A] at iteration
    [j] with no variance and keeps only its counters; a sampler that returns
    the points [0, 1/2, 1, 3/2, ...]; a square root that is exact on the
    squares of fractions. *)

Definition example_link : ModelLink := {|
  _n_par := 1;
  _par_name := ["A"];
  _par_rng := [(0, 4)];
  ml_n_data := 1;
  ml_data_idx := [0%Z];
  _MPI_call := false;
  _multi_call := false;
  call_model := λ _ par_dict _, Return [default 0 (par_dict !! "A")];
  multi_call_model := λ _ sam_dict _,
    Return ((λ a, [a]) <$> default [] (sam_dict !! "A"));
  get_md_var := λ _ _, Raise NotImplementedError
|}.

Record example_state := {
  ex_emul_i : nat;
  ex_ccheck : list (list string)
}.

Definition full_ccheck : list string :=
  ["mod_real_set"; "active_par"; "regression"; "prior_exp_sam_set"; "cov_mat"].

Definition example_emulator : Emulator := {|
  emulator := example_state;
  _emul_i := ex_emul_i;
  _emul_type := λ _, "default";
  _ccheck := ex_ccheck;
  _n_data := λ _, [0; 1; 1; 1]%nat;
  _data_val := λ _, [[]; [1]; [1]; [1]];
  _data_err := λ _, [[]; [0]; [0]; [0]];
  _data_idx := λ _, [[]; [0%Z]; [0%Z]; [0%Z]];
  _sam_set := λ _, [[]; []; []; []];
  _get_emul_i := λ em emul_i,
    match emul_i with
    | None =>
        if decide (ex_emul_i em = 0)%nat then Raise RequestError
        else Return (ex_emul_i em)
    | Some i =>
        if decide (1 ≤ i ≤ Z.of_nat (ex_emul_i em))%Z then Return (Z.to_nat i)
        else Raise RequestError
    end;
  _evaluate := λ _ j par_set,
    Return ((λ a, inject_Z (Z.of_nat j) * a) <$> par_set, [0]);
  _create_new_emulator := λ ef,
    (({| ex_emul_i := 0; ex_ccheck := [[]; full_ccheck] |},
      {[1%nat := empty_group]}), Return ());
  _prepare_new_iteration := λ i ef,
    (({| ex_emul_i := i - 1;
         ex_ccheck := take i (ex_ccheck ef.1) ++ [full_ccheck] |},
      <[i := empty_group]> ef.2), Return false);
  _construct_iteration := λ i ef,
    (({| ex_emul_i := i; ex_ccheck := <[i := []]> (ex_ccheck ef.1) |}, ef.2),
     Return ());
  emulator_save_data := λ i _ ef,
    (({| ex_emul_i := ex_emul_i ef.1;
         ex_ccheck := alter (filter (λ step, step ≠ "mod_real_set")) i
                        (ex_ccheck ef.1) |}, ef.2), Return ())
|}.

Definition example_libraries : Libraries := {|
  lhd := λ n_sam _ _ _, (λ k, [inject_Z (Z.of_nat k) / 2]) <$> seq 0 n_sam;
  np_sqrt := λ x, Z.sqrt (Qnum (Qred x)) # Pos.sqrt (Qden (Qred x))
|}.

(** A new [Pipeline] object on the emulator [em] and the HDF5-file [f], before
    [__init__] loads the data: the parameters file gives the cut-off list
    [impl_cut] and [base_eval_sam]; [interrupt] schedules the user's
    interrupt. *)
Definition example_object (impl_cut : list float) (base_eval_sam : nat)
  (interrupt : option nat) (em : example_state) (f : gmap nat Group)
  : @Pipeline example_emulator :=
  {| _size := 2; _n_sam_init := 3; _base_eval_sam := base_eval_sam;
     par_impl_cut := Some impl_cut;
     _n_impl_sam := []; _impl_cut := []; _cut_idx := [];
     _n_eval_sam := []; _prc := None; _impl_sam := None;
     _emulator := (em : @emulator example_emulator);
     file := f; log := []; sigint := interrupt |}.

Section ExamplePipeline.
#[local] Existing Instances example_link example_emulator example_libraries.

(** The pipeline of a first session, with nothing constructed yet and the
    cut-off list [[3.5]]. *)
Definition example_pipeline (base_eval_sam : nat) (interrupt : option nat)
  : @Pipeline example_emulator :=
  (_load_data
     (example_object [3.5] base_eval_sam interrupt
        {| ex_emul_i := 0; ex_ccheck := [[]] |} ∅)).1.

(** The pipeline of a later session on the emulator and the file that the
    state [old] holds. *)
Definition new_session (impl_cut : list float) (base_eval_sam : nat)
  (interrupt : option nat) (old : @Pipeline example_emulator)
  : @Pipeline example_emulator :=
  (_load_data
     (example_object impl_cut base_eval_sam interrupt
        (_emulator old) (file old))).1.

(** A pipeline whose first iteration has the cut-offs [impl_cut]. *)
Definition with_cuts (impl_cut : list float) (cut_idx : nat)
  : @Pipeline example_emulator :=
  set_cut_idx [None; Some cut_idx]
    (set_impl_cut [[]; impl_cut] (example_pipeline 3 None)).

(** The first iteration constructed, not analyzed. *)
Definition constructed (base_eval_sam : nat) (interrupt : option nat)
  : @Pipeline example_emulator :=
  set_sigint interrupt
    (construct None false None false (example_pipeline base_eval_sam None)).1.

(** The first iteration constructed and analyzed, and the construction of
    the second one stopped after its model realizations were stored. *)
Definition second_begun : @Pipeline example_emulator :=
  (construct_from_start 2 None
     (construct None true None false (example_pipeline 3 None)).1).1.

(** The first iteration constructed and analyzed, and the construction of
    the second one stopped before its model realizations were stored. *)
Definition second_prepared : @Pipeline example_emulator :=
  (start_next_iteration 2
     (construct None true None false (example_pipeline 3 None)).1).1.

(** The first iteration constructed and analyzed. *)
Definition analyzed : @Pipeline example_emulator :=
  (construct None true None false (example_pipeline 3 None)).1.

(** A later session with [base_eval_sam] set to 1, in which the analysis of
    the first iteration evaluates one sample, and finds it implausible. *)
Definition first_reanalyzed (old : @Pipeline example_emulator)
  : @Pipeline example_emulator :=
  (analyze (new_session [3.5] 1 None old)).1.

(** A later session on the analyzed first iteration, with the cut-off list
    [[3.0]] in the parameters and an interrupt that arrives at the first
    evaluation of the emulator. *)
Definition interrupted_session : @Pipeline example_emulator :=
  new_session [3.0] 3 (Some 1%nat) analyzed.

End ExamplePipeline.

(** * Part II: properties *)

(** ** Floats *)

Lemma float_leb_le (x y : float) : float_leb x y = true ↔ x <= y.
Proof. apply Qle_bool_iff. Qed.

Lemma float_gtb_lt (x y : float) : float_gtb x y = true ↔ y < x.
Proof.
  unfold float_gtb. rewrite negb_true_iff, <- not_true_iff_false, Qle_bool_iff.
  split; [apply Qnot_le_lt | apply Qlt_not_le].
Qed.

Lemma float_gtb_le (x y : float) : float_gtb x y = false ↔ x <= y.
Proof. unfold float_gtb. rewrite negb_false_iff. apply Qle_bool_iff. Qed.

Lemma nonzero_neq (x : float) : nonzero x = true ↔ ¬ x == 0.
Proof.
  unfold nonzero, float_eqb.
  rewrite negb_true_iff, <- not_true_iff_false, Qeq_bool_iff. done.
Qed.

Lemma nonzero_eq (x : float) : nonzero x = false ↔ x == 0.
Proof. unfold nonzero, float_eqb. rewrite negb_false_iff. apply Qeq_bool_iff. Qed.

Lemma pow2_nonneg (x : float) : 0 <= pow2 x.
Proof.
  unfold pow2. change (x ^ 2) with (x * x).
  destruct x as [n d]. unfold Qle, Qmult. simpl. nia.
Qed.

(** ** Sorting: [np.flip(np.sort(a))] is [a] in descending order *)

Lemma sort_insert_perm (x : float) (l : list float) :
  Permutation (sort_insert x l) (x :: l).
Proof.
  induction l as [| y l IH]; simpl; [done |].
  destruct (float_leb x y); [done |].
  rewrite IH. apply perm_swap.
Qed.

Lemma np_sort_perm (l : list float) : Permutation (np_sort l) l.
Proof.
  induction l as [| x l IH]; simpl; [done |].
  fold (np_sort l). by rewrite sort_insert_perm, IH.
Qed.

Lemma sort_insert_sorted (x : float) (l : list float) :
  StronglySorted Qle l → StronglySorted Qle (sort_insert x l).
Proof.
  induction 1 as [| y l Hs IH Hall]; simpl.
  - repeat constructor.
  - destruct (float_leb x y) eqn:Hxy.
    + apply float_leb_le in Hxy. constructor; [by constructor |].
      constructor; [done |].
      eapply Forall_impl; [exact Hall |]. intros z Hz. by eapply Qle_trans.
    + constructor; [done |].
      assert (Hyx : y <= x).
      { apply Qlt_le_weak. apply float_gtb_lt.
        unfold float_gtb, float_leb in *. by rewrite Hxy. }
      rewrite (Forall_forall (Qle y)). intros z Hz.
      apply list_elem_of_In in Hz.
      apply (Permutation_in _ (sort_insert_perm x l)) in Hz.
      destruct Hz as [<- | Hz]; [done |].
      rewrite Forall_forall in Hall. by apply Hall, list_elem_of_In.
Qed.

Lemma np_sort_sorted (l : list float) : StronglySorted Qle (np_sort l).
Proof.
  induction l as [| x l IH]; simpl; [constructor |].
  by apply sort_insert_sorted.
Qed.

Lemma StronglySorted_snoc {A : Type} (R : A → A → Prop) (l : list A) (x : A) :
  StronglySorted R l → Forall (λ y, R y x) l → StronglySorted R (l ++ [x]).
Proof.
  induction 1 as [| y l Hs IH Hall]; intros Hx; simpl.
  - repeat constructor.
  - apply Forall_cons in Hx as [Hyx Hx]. constructor; [by apply IH |].
    apply Forall_app. split; [done | by constructor].
Qed.

Lemma StronglySorted_reverse {A : Type} (R : A → A → Prop) (l : list A) :
  StronglySorted R l → StronglySorted (λ x y, R y x) (reverse l).
Proof.
  induction 1 as [| y l Hs IH Hall]; [constructor |].
  rewrite reverse_cons. apply StronglySorted_snoc; [done |].
  rewrite Forall_forall in *. intros z Hz. apply Hall.
  by apply elem_of_reverse.
Qed.

Lemma np_flip_sort_perm (l : list float) : Permutation (np_flip (np_sort l)) l.
Proof. unfold np_flip. by rewrite reverse_Permutation, np_sort_perm. Qed.

Lemma np_flip_sort_sorted (l : list float) :
  StronglySorted (λ x y, y <= x) (np_flip (np_sort l)).
Proof. apply StronglySorted_reverse, np_sort_sorted. Qed.

Lemma np_flip_sort_length (l : list float) :
  length (np_flip (np_sort l)) = length l.
Proof. apply Permutation_length, np_flip_sort_perm. Qed.

(** ** The scan of [_do_impl_check] *)

Lemma impl_check_scan_existsb (pairs : list (float * float)) :
  impl_check_scan pairs = negb (existsb exceeds pairs).
Proof.
  induction pairs as [| [impl_val cut_val] rest IH]; [done |].
  simpl. unfold exceeds at 1. simpl.
  by destruct (nonzero cut_val && float_gtb impl_val cut_val).
Qed.

Lemma impl_check_scan_app (before after : list (float * float)) :
  impl_check_scan (before ++ after) =
  impl_check_scan before && impl_check_scan after.
Proof.
  induction before as [| [impl_val cut_val] rest IH]; [done |].
  simpl. by destruct (nonzero cut_val && float_gtb impl_val cut_val).
Qed.

Lemma exceeds_spec (p : float * float) :
  exceeds p = true ↔ ¬ p.2 == 0 ∧ p.2 < p.1.
Proof. unfold exceeds. by rewrite andb_true_iff, nonzero_neq, float_gtb_lt. Qed.

Lemma existsb_exceeds_zip (sorted_impl_val impl_cut : list float) :
  existsb exceeds (zip sorted_impl_val impl_cut) = true ↔
  ∃ i impl_val cut_val,
    sorted_impl_val !! i = Some impl_val ∧ impl_cut !! i = Some cut_val ∧
    ¬ cut_val == 0 ∧ cut_val < impl_val.
Proof.
  rewrite existsb_exists. split.
  - intros [[impl_val cut_val] [Hin Hex]].
    apply list_elem_of_In, list_elem_of_lookup in Hin as [i Hi].
    apply lookup_zip_with_Some in Hi as (x & y & Heq & Hx & Hy).
    injection Heq as <- <-. apply exceeds_spec in Hex as [? ?].
    by exists i, impl_val, cut_val.
  - intros (i & impl_val & cut_val & Hx & Hy & Hnz & Hlt).
    exists (impl_val, cut_val). split; [| by apply exceeds_spec].
    apply list_elem_of_In, list_elem_of_lookup. exists i.
    apply lookup_zip_with_Some. by exists impl_val, cut_val.
Qed.

(** ** Python lists *)

Lemma getitem_Some {A : Type} (l : list A) (i : nat) (x : A) :
  l !! i = Some x → getitem l i = Return x.
Proof. unfold getitem. by intros ->. Qed.

Lemma getitem_None {A : Type} (l : list A) (i : nat) :
  l !! i = None → getitem l i = Raise IndexError.
Proof. unfold getitem. by intros ->. Qed.

Lemma getitem_middle {A : Type} (l1 l2 : list A) (x : A) :
  getitem (l1 ++ x :: l2) (length l1) = Return x.
Proof. apply getitem_Some, list_lookup_middle. done. Qed.

Lemma setitem_middle {A : Type} (l1 l2 : list A) (x y : A) :
  setitem (l1 ++ x :: l2) (length l1) y = Return (l1 ++ y :: l2).
Proof.
  unfold setitem. rewrite decide_True.
  - f_equal. by rewrite insert_app_r_alt, Nat.sub_diag by lia.
  - rewrite length_app. simpl. lia.
Qed.

Lemma check_nneg_float_Return (value v : float) :
  check_nneg_float value = Return v → v = value ∧ 0 <= value.
Proof.
  unfold check_nneg_float. destruct (float_leb 0 value) eqn:H; [| done].
  intros [= <-]. split; [done | by apply float_leb_le].
Qed.

(** ** The completion of the cut-off list *)

(** One pass of the completion loop, at the entry after [prev]. *)
Lemma impl_cut_step_middle (pre rest : list float) (prev c : float) :
  impl_cut_step (pre ++ prev :: c :: rest) (S (length pre)) =
  c ← check_nneg_float c;
  if float_eqb c 0 then Return (pre ++ prev :: prev :: rest)
  else if nonzero prev && float_gtb c prev then Raise ValueError
  else Return (pre ++ prev :: c :: rest).
Proof.
  assert (Hc : ∀ x, (pre ++ prev :: x :: rest) !! S (length pre) = Some x).
  { intros x. rewrite lookup_app_r by lia.
    by replace (S (length pre) - length pre)%nat with 1%nat by lia. }
  assert (Hset : ∀ x y, setitem (pre ++ prev :: x :: rest) (S (length pre)) y
                        = Return (pre ++ prev :: y :: rest)).
  { intros x y. unfold setitem. rewrite decide_True.
    - f_equal. rewrite insert_app_r_alt by lia.
      by replace (S (length pre) - length pre)%nat with 1%nat by lia.
    - rewrite length_app. simpl. lia. }
  unfold impl_cut_step. rewrite (getitem_Some _ _ _ (Hc c)).
  cbn [mbind result_bind].
  destruct (check_nneg_float c) as [c' | e] eqn:Hc'; [| done].
  apply check_nneg_float_Return in Hc' as [-> _]. cbn [mbind result_bind].
  rewrite Hset. cbn [mbind result_bind].
  replace (S (length pre) - 1)%nat with (length pre) by lia.
  rewrite getitem_middle. cbn [mbind result_bind].
  destruct (float_eqb c 0); [apply Hset | done].
Qed.

(** The loop over the indices is the recursion on the remaining entries. *)
Lemma impl_cut_loop (rest pre : list float) (prev : float) :
  for_result impl_cut_step (seq (S (length pre)) (length rest))
    (pre ++ prev :: rest) =
  l ← complete_from prev rest; Return (pre ++ prev :: l).
Proof.
  revert pre prev. induction rest as [| c rest IH]; intros pre prev; [done |].
  cbn [length seq for_result complete_from].
  rewrite impl_cut_step_middle.
  destruct (check_nneg_float c) as [c' | e] eqn:Hc; [| done].
  cbn [mbind result_bind].
  assert (Hlen : ∀ x, S (S (length pre)) = S (length (pre ++ [x]))).
  { intros x. rewrite length_app. simpl. lia. }
  destruct (float_eqb c' 0).
  - cbn [mbind result_bind]. rewrite (Hlen prev).
    replace (pre ++ prev :: prev :: rest) with ((pre ++ [prev]) ++ prev :: rest)
      by (by rewrite <- app_assoc).
    rewrite IH. destruct (complete_from prev rest); [| done].
    cbn [mbind result_bind]. by rewrite <- app_assoc.
  - destruct (nonzero prev && float_gtb c' prev); [done |].
    cbn [mbind result_bind]. rewrite (Hlen prev).
    replace (pre ++ prev :: c' :: rest) with ((pre ++ [prev]) ++ c' :: rest)
      by (by rewrite <- app_assoc).
    rewrite IH. destruct (complete_from c' rest); [| done].
    cbn [mbind result_bind]. by rewrite <- app_assoc.
Qed.

Lemma complete_impl_cut_cons (c : float) (rest : list float) :
  complete_impl_cut (c :: rest) =
  c ← check_nneg_float c; l ← complete_from c rest; Return (c :: l).
Proof.
  unfold complete_impl_cut. cbn [getitem lookup list_lookup mbind result_bind].
  destruct (check_nneg_float c) as [c' | e] eqn:Hc; [| done].
  apply check_nneg_float_Return in Hc as [-> _]. cbn [mbind result_bind].
  change (setitem (c :: rest) 0 c) with (Return (c :: rest)).
  cbn [mbind result_bind]. replace (length (c :: rest) - 1)%nat
    with (length rest) by (simpl; lia).
  apply (impl_cut_loop rest [] c).
Qed.

Lemma complete_from_raise (prev : float) (rest : list float) (e : exn) :
  complete_from prev rest = Raise e → e = ValueError.
Proof.
  revert prev. induction rest as [| c rest IH]; intros prev; [done |].
  cbn [complete_from]. unfold check_nneg_float.
  destruct (float_leb 0 c); cbn [mbind result_bind]; [| by intros [= <-]].
  destruct (float_eqb c 0).
  - destruct (complete_from prev rest) eqn:H; [done |].
    cbn [mbind result_bind]. intros [= <-]. by eapply IH.
  - destruct (nonzero prev && float_gtb c prev); [by intros [= <-] |].
    destruct (complete_from c rest) eqn:H; [done |].
    cbn [mbind result_bind]. intros [= <-]. by eapply IH.
Qed.

Lemma complete_from_inherit (prev : float) (rest l : list float) :
  complete_from prev rest = Return l → l = inherit_from prev rest.
Proof.
  revert prev l. induction rest as [| c rest IH]; intros prev l.
  { by intros [= <-]. }
  cbn [complete_from inherit_from]. unfold check_nneg_float.
  destruct (float_leb 0 c); cbn [mbind result_bind]; [| done].
  destruct (float_eqb c 0).
  - destruct (complete_from prev rest) eqn:H; [| done].
    cbn [mbind result_bind]. intros [= <-]. f_equal. by apply IH.
  - destruct (nonzero prev && float_gtb c prev); [done |].
    destruct (complete_from c rest) eqn:H; [| done].
    cbn [mbind result_bind]. intros [= <-]. f_equal. by apply IH.
Qed.

Lemma inherits_cons (x y : float) (l : list float) :
  (¬ x == 0 → ¬ y == 0 ∧ y <= x) → inherits (y :: l) → inherits (x :: y :: l).
Proof.
  intros Hxy Hl [| i] a b Ha Hb.
  - injection Ha as <-. injection Hb as <-. done.
  - by apply (Hl i).
Qed.

Lemma inherits_singleton (x : float) : inherits [x].
Proof. intros [| i] a b Ha Hb; done. Qed.

Lemma complete_from_inherits (prev : float) (rest l : list float) :
  complete_from prev rest = Return l → inherits (prev :: l).
Proof.
  revert prev l. induction rest as [| c rest IH]; intros prev l.
  { intros [= <-]. apply inherits_singleton. }
  cbn [complete_from]. unfold check_nneg_float.
  destruct (float_leb 0 c); cbn [mbind result_bind]; [| done].
  destruct (float_eqb c 0) eqn:Hc0.
  - destruct (complete_from prev rest) eqn:H; [| done].
    cbn [mbind result_bind]. intros [= <-].
    apply inherits_cons; [| by apply IH].
    intros Hp. split; [done | apply Qle_refl].
  - destruct (nonzero prev && float_gtb c prev) eqn:Hv; [done |].
    destruct (complete_from c rest) eqn:H; [| done].
    cbn [mbind result_bind]. intros [= <-].
    apply inherits_cons; [| by apply IH].
    intros Hp. split.
    + apply nonzero_neq. unfold nonzero. by rewrite Hc0.
    + apply andb_false_iff in Hv as [Hv | Hv].
      * apply nonzero_eq in Hv. done.
      * by apply float_gtb_le.
Qed.

(** From a real cut-off onward the completed list is non-increasing and has
    no wildcard. *)
Lemma inherits_from_real (l : list float) (k : nat) (x : float) :
  inherits l → l !! k = Some x → ¬ x == 0 →
  ∀ n y, l !! (k + n)%nat = Some y → ¬ y == 0 ∧ y <= x.
Proof.
  intros Hl Hk Hx n. induction n as [| n IH]; intros y Hy.
  - rewrite Nat.add_0_r, Hk in Hy. injection Hy as <-.
    split; [done | apply Qle_refl].
  - destruct (l !! (k + n)%nat) as [z |] eqn:Hz.
    + destruct (IH z eq_refl) as [Hz0 Hzx].
      rewrite Nat.add_succ_r in Hy.
      destruct (Hl _ _ _ Hz Hy Hz0) as [Hy0 Hyz].
      split; [done | by eapply Qle_trans].
    + apply lookup_ge_None in Hz. apply lookup_lt_Some in Hy. lia.
Qed.

Lemma first_real_cut_spec (impl_cut : list float) (i k : nat) :
  first_real_cut i impl_cut = Return k →
  (i ≤ k)%nat ∧
  (∃ x, impl_cut !! (k - i)%nat = Some x ∧ ¬ x == 0) ∧
  ∀ j y, (j < k - i)%nat → impl_cut !! j = Some y → y == 0.
Proof.
  revert i. induction impl_cut as [| c rest IH]; intros i; [done |].
  cbn [first_real_cut]. destruct (nonzero c) eqn:Hc.
  - intros [= <-]. split; [done |]. rewrite Nat.sub_diag. split.
    + exists c. split; [done | by apply nonzero_neq].
    + intros j y Hj. lia.
  - intros H. apply IH in H as (Hle & (x & Hx & Hx0) & Hbefore).
    split; [lia |]. replace (k - i)%nat with (S (k - S i)) by lia. split.
    + by exists x.
    + intros [| j] y Hj Hy.
      * injection Hy as <-. by apply nonzero_eq.
      * apply (Hbefore j); [lia | done].
Qed.

Lemma first_real_cut_raise (impl_cut : list float) (i : nat) (e : exn) :
  first_real_cut i impl_cut = Raise e →
  e = ValueError ∧ Forall (λ c, c == 0) impl_cut.
Proof.
  revert i. induction impl_cut as [| c rest IH]; intros i.
  { by intros [= <-]. }
  cbn [first_real_cut]. destruct (nonzero c) eqn:Hc; [done |].
  intros H. apply IH in H as [-> Hall]. split; [done |].
  constructor; [by apply nonzero_eq | done].
Qed.

Lemma first_real_cut_zeros (impl_cut : list float) (i : nat) :
  Forall (λ c, c == 0) impl_cut → first_real_cut i impl_cut = Raise ValueError.
Proof.
  intros H. revert i. induction H as [| c rest Hc _ IH]; intros i; [done |].
  cbn [first_real_cut]. apply nonzero_eq in Hc. by rewrite Hc.
Qed.

Lemma resolved_lookup_S (impl_cut : list float) (i : nat) (c : float) :
  impl_cut !! S i = Some c →
  resolved impl_cut !! S i =
  if float_eqb c 0 then resolved impl_cut !! i else Some c.
Proof.
  destruct impl_cut as [| c0 rest]; [done |]. cbn [resolved].
  change ((c0 :: rest) !! S i) with (rest !! i).
  change ((c0 :: inherit_from c0 rest) !! S i) with (inherit_from c0 rest !! i).
  revert c0 i. induction rest as [| c1 rest IH]; intros c0 i; [done |].
  destruct i as [| i]; cbn [inherit_from].
  - intros [= ->]. cbn. by destruct (float_eqb c 0).
  - intros H. change ((c1 :: rest) !! S i) with (rest !! i) in H.
    apply (IH (if float_eqb c1 0 then c0 else c1)) in H.
    exact H.
Qed.

Lemma resolved_length (impl_cut : list float) :
  length (resolved impl_cut) = length impl_cut.
Proof.
  destruct impl_cut as [| c0 rest]; [done |]. cbn [resolved length]. f_equal.
  revert c0. induction rest as [| c1 rest IH]; intros c0; [done |].
  cbn [inherit_from length]. by rewrite IH.
Qed.

(** What [get_impl_cut] returns when it accepts a list. *)
Lemma get_impl_cut_Return (impl_cut full : list float) (cut_idx : nat) :
  get_impl_cut impl_cut = Return (full, cut_idx) →
  full = resolved impl_cut ∧ inherits full ∧
  first_real_cut 0 full = Return cut_idx.
Proof.
  unfold get_impl_cut. destruct impl_cut as [| c rest]; [done |].
  rewrite complete_impl_cut_cons. unfold check_nneg_float.
  destruct (float_leb 0 c); cbn [mbind result_bind]; [| done].
  destruct (complete_from c rest) as [l |] eqn:Hl; [| done].
  cbn [mbind result_bind].
  destruct (first_real_cut 0 (c :: l)) as [k |] eqn:Hk; [| done].
  cbn [mbind result_bind]. intros [= <- <-].
  split; [| split; [by eapply complete_from_inherits | done]].
  cbn [resolved]. f_equal. by apply complete_from_inherit.
Qed.

(** A list that is not empty is only ever rejected with a [ValueError]. *)
Lemma get_impl_cut_Raise (impl_cut : list float) (e : exn) :
  impl_cut ≠ [] → get_impl_cut impl_cut = Raise e → e = ValueError.
Proof.
  unfold get_impl_cut. destruct impl_cut as [| c rest]; [done |]. intros _.
  rewrite complete_impl_cut_cons. unfold check_nneg_float.
  destruct (float_leb 0 c); cbn [mbind result_bind]; [| by intros [= <-]].
  destruct (complete_from c rest) as [l |] eqn:Hl; cbn [mbind result_bind].
  - destruct (first_real_cut 0 (c :: l)) as [k |] eqn:Hk; [done |].
    cbn [mbind result_bind]. intros [= <-].
    by apply first_real_cut_raise in Hk as [-> _].
  - intros [= <-]. by eapply complete_from_raise.
Qed.

Section PipelineProperties.
Context `{ML : ModelLink} `{EM : Emulator} `{LIB : Libraries}.

(** ** The monad *)

Lemma bind_Return {A B : Type} (m : M A) (f : A → M B) (s s' : Pipeline) (a : A) :
  m s = (s', Return a) → (m ≫= f) s = f a s'.
Proof. unfold mbind, M_bind. by intros ->. Qed.

Lemma bind_Raise {A B : Type} (m : M A) (f : A → M B) (s s' : Pipeline) (e : exn) :
  m s = (s', Raise e) → (m ≫= f) s = (s', Raise e).
Proof. unfold mbind, M_bind. by intros ->. Qed.

Lemma bind_inv {A B : Type} (m : M A) (f : A → M B) (s s' : Pipeline)
  (r : result B) :
  (m ≫= f) s = (s', r) →
  (∃ s1 a, m s = (s1, Return a) ∧ f a s1 = (s', r)) ∨
  (∃ e, m s = (s', Raise e) ∧ r = Raise e).
Proof.
  unfold mbind, M_bind. destruct (m s) as [s1 [a | e]].
  - intros H. left. by exists s1, a.
  - intros [= <- <-]. right. by exists e.
Qed.

Section Steps.
Context (R : relation Pipeline) `{!PreOrder R}.

Lemma steps_ret {A : Type} (a : A) : steps R (mret a).
Proof. intros s. simpl. reflexivity. Qed.

Lemma steps_raise {A : Type} (e : exn) : steps R (raise (A := A) e).
Proof. intros s. simpl. reflexivity. Qed.

Lemma steps_lift {A : Type} (r : result A) : steps R (lift r).
Proof. intros s. simpl. reflexivity. Qed.

Lemma steps_gets {A : Type} (f : Pipeline → A) : steps R (gets f).
Proof. intros s. simpl. reflexivity. Qed.

Lemma steps_modify (f : Pipeline → Pipeline) :
  (∀ s, R s (f s)) → steps R (modify f).
Proof. intros H s. apply H. Qed.

Lemma steps_bind {A B : Type} (m : M A) (f : A → M B) :
  steps R m → (∀ a, steps R (f a)) → steps R (m ≫= f).
Proof.
  intros Hm Hf s. specialize (Hm s). unfold mbind, M_bind.
  destruct (m s) as [s1 [a | e]]; simpl in *; [| done].
  etrans; [exact Hm | apply Hf].
Qed.

Lemma steps_try_except_else {A B : Type} (body : M A) (handled : exn)
  (handler : M B) (orelse : A → M B) :
  steps R body → steps R handler → (∀ a, steps R (orelse a)) →
  steps R (try_except_else body handled handler orelse).
Proof.
  intros Hb Hh Ho s. specialize (Hb s). unfold try_except_else.
  destruct (body s) as [s1 [a | e]]; simpl in *.
  - etrans; [exact Hb | apply Ho].
  - destruct (decide (e = handled)); [| done].
    etrans; [exact Hb | apply Hh].
Qed.

Lemma steps_try_except {A : Type} (body : M A) (handled : exn) (handler : M A) :
  steps R body → steps R handler → steps R (try_except body handled handler).
Proof.
  intros Hb Hh. apply steps_try_except_else; [done | done |].
  intros a. apply steps_ret.
Qed.

Lemma steps_try_finally {A : Type} (body : M A) (final : M ()) :
  steps R body → steps R final → steps R (try_finally body final).
Proof.
  intros Hb Hf s. specialize (Hb s). unfold try_finally.
  destruct (body s) as [s1 r]. specialize (Hf s1).
  destruct (final s1) as [s2 [[] | e]]; simpl in *; by etrans.
Qed.

Lemma steps_for_each {A : Type} (l : list A) (body : A → M ()) :
  (∀ x, steps R (body x)) → steps R (for_each l body).
Proof.
  intros Hb. induction l as [| x l IH]; simpl.
  - apply steps_ret.
  - apply steps_bind; [apply Hb | by intros _].
Qed.

Lemma steps_steps_on {A : Type} (e : exn) (m : M A) :
  steps R m → steps_on e R m.
Proof. intros H s _. apply H. Qed.

Lemma never_raises_steps_on {A : Type} (e : exn) (m : M A) :
  never_raises e m → steps_on e R m.
Proof. intros H s He. by destruct (H s). Qed.

Lemma steps_on_bind {A B : Type} (e : exn) (m : M A) (f : A → M B) :
  steps R m → (∀ a, steps_on e R (f a)) → steps_on e R (m ≫= f).
Proof.
  intros Hm Hf s. specialize (Hm s). unfold mbind, M_bind.
  destruct (m s) as [s1 [a | e']]; simpl in *; [| done].
  intros He. etrans; [exact Hm | by apply Hf].
Qed.

End Steps.

(** ** Exceptions that a method cannot raise *)

Section NeverRaises.
Context (e : exn).

Lemma never_raises_ret {A : Type} (a : A) : never_raises e (mret a).
Proof. by intros s. Qed.

Lemma never_raises_raise {A : Type} (e' : exn) :
  e' ≠ e → never_raises e (raise (A := A) e').
Proof. intros H s Heq. apply H. by injection Heq. Qed.

Lemma never_raises_lift {A : Type} (r : result A) :
  r ≠ Raise e → never_raises e (lift r).
Proof. intros H s. done. Qed.

Lemma never_raises_gets {A : Type} (f : Pipeline → A) : never_raises e (gets f).
Proof. by intros s. Qed.

Lemma never_raises_modify (f : Pipeline → Pipeline) : never_raises e (modify f).
Proof. by intros s. Qed.

Lemma never_raises_bind {A B : Type} (m : M A) (f : A → M B) :
  never_raises e m → (∀ a, never_raises e (f a)) → never_raises e (m ≫= f).
Proof.
  intros Hm Hf s. specialize (Hm s). unfold mbind, M_bind.
  destruct (m s) as [s1 [a | e']]; simpl in *; [apply Hf |].
  intros [= ->]. by apply Hm.
Qed.

Lemma never_raises_try_except_else {A B : Type} (body : M A) (handled : exn)
  (handler : M B) (orelse : A → M B) :
  never_raises e body → never_raises e handler →
  (∀ a, never_raises e (orelse a)) →
  never_raises e (try_except_else body handled handler orelse).
Proof.
  intros Hb Hh Ho s. specialize (Hb s). unfold try_except_else.
  destruct (body s) as [s1 [a | e']]; simpl in *; [apply Ho |].
  destruct (decide (e' = handled)); [apply Hh |].
  intros [= ->]. by apply Hb.
Qed.

Lemma never_raises_try_except {A : Type} (body : M A) (handled : exn)
  (handler : M A) :
  never_raises e body → never_raises e handler →
  never_raises e (try_except body handled handler).
Proof.
  intros Hb Hh. apply never_raises_try_except_else; [done | done |].
  intros a. apply never_raises_ret.
Qed.

Lemma never_raises_try_finally {A : Type} (body : M A) (final : M ()) :
  never_raises e body → never_raises e final →
  never_raises e (try_finally body final).
Proof.
  intros Hb Hf s. specialize (Hb s). unfold try_finally.
  destruct (body s) as [s1 r]. specialize (Hf s1).
  destruct (final s1) as [s2 [[] | e']]; simpl in *; [done |].
  intros [= ->]. by apply Hf.
Qed.

Lemma never_raises_for_each {A : Type} (l : list A) (body : A → M ()) :
  (∀ x, never_raises e (body x)) → never_raises e (for_each l body).
Proof.
  intros Hb. induction l as [| x l IH]; simpl.
  - apply never_raises_ret.
  - apply never_raises_bind; [apply Hb | by intros _].
Qed.

End NeverRaises.

Lemma setitem_Raise {A : Type} (l : list A) (i : nat) (x : A) (e : exn) :
  setitem l i x = Raise e → e = IndexError.
Proof. unfold setitem. case_decide; [done | by intros [= <-]]. Qed.

Lemma getitem_Raise {A : Type} (l : list A) (i : nat) (e : exn) :
  getitem l i = Raise e → e = IndexError.
Proof. unfold getitem. destruct (l !! i); [done | by intros [= <-]]. Qed.

End PipelineProperties.

Create HintDb steps.

(** Decomposes a goal [steps R m] along the structure of [m]. *)
Ltac steps_tac :=
  repeat first
    [ apply steps_ret; typeclasses eauto
    | apply steps_raise; typeclasses eauto
    | apply steps_lift; typeclasses eauto
    | apply steps_gets; typeclasses eauto
    | assumption
    | solve [auto with steps]
    | apply steps_bind; [typeclasses eauto .. | idtac | intros ?]
    | apply steps_try_finally; [typeclasses eauto .. | idtac | idtac]
    | apply steps_try_except; [typeclasses eauto .. | idtac | idtac]
    | apply steps_try_except_else;
        [typeclasses eauto .. | idtac | idtac | intros ?]
    | apply steps_for_each; [typeclasses eauto .. | intros ?]
    | progress case_match ].

Section PipelineMethods.
Context `{ML : ModelLink} `{EM : Emulator} `{LIB : Libraries}.

(** ** The relations between the state before and after a method *)

#[global] Instance same_data_preorder : PreOrder same_data.
Proof.
  split; [by intros s |]. intros s1 s2 s3 H12 H23. unfold same_data in *.
  by rewrite H23.
Qed.

#[global] Instance same_but_cuts_preorder : PreOrder same_but_cuts.
Proof.
  split; [by intros s |].
  intros s1 s2 s3 (?&?&?&?&?&?&?&?&?&?) (?&?&?&?&?&?&?&?&?&?).
  repeat split; by etrans.
Qed.

#[global] Instance same_impl_sam_preorder : PreOrder same_impl_sam.
Proof.
  split; [by intros s |].
  intros s1 s2 s3 (?&?&?&?) (?&?&?&?). repeat split; by etrans.
Qed.

#[global] Instance log_grows_preorder : PreOrder log_grows.
Proof.
  split; [intros s; exists []; by rewrite app_nil_r |].
  intros s1 s2 s3 [l1 H1] [l2 H2]. exists (l1 ++ l2).
  by rewrite H2, H1, app_assoc.
Qed.

#[global] Instance emits_no_preorder (P : event → bool) :
  PreOrder (emits_no P).
Proof.
  split; [intros s; exists []; by rewrite app_nil_r |].
  intros s1 s2 s3 (l1 & H1 & F1) (l2 & H2 & F2). exists (l1 ++ l2).
  split; [by rewrite H2, H1, app_assoc | by apply Forall_app].
Qed.

#[global] Instance same_emulator_preorder : PreOrder same_emulator.
Proof.
  split; [by intros s |]. intros s1 s2 s3 H12 H23. unfold same_emulator in *.
  by rewrite H23.
Qed.

Lemma same_data_same_but_cuts (s s' : Pipeline) :
  same_data s s' → same_but_cuts s s'.
Proof.
  unfold same_data, data_of. intros H.
  injection H as H1 H2 H3 H4 H5 H6 H7 H8 H9 H10 H11 H12.
  repeat split; try done. by rewrite H12.
Qed.

Lemma impl_sam_of_forget_cuts (f : gmap nat Group) :
  impl_sam_of <$> (forget_cuts <$> f) = impl_sam_of <$> f.
Proof. rewrite <- map_fmap_compose. by apply map_fmap_ext. Qed.

Lemma same_but_cuts_same_impl_sam (s s' : Pipeline) :
  same_but_cuts s s' → same_impl_sam s s'.
Proof.
  intros (?&?&?&?&?&?&?&?&?&Hf). repeat split; try done.
  rewrite <- (impl_sam_of_forget_cuts (file s')), Hf.
  apply impl_sam_of_forget_cuts.
Qed.

Lemma emits_no_log_grows (P : event → bool) (s s' : Pipeline) :
  emits_no P s s' → log_grows s s'.
Proof. intros (l & H & _). by exists l. Qed.

Lemma steps_weaken {A : Type} (R R' : relation Pipeline) (m : M A) :
  (∀ s s', R s s' → R' s s') → steps R m → steps R' m.
Proof. intros HR Hm s. apply HR, Hm. Qed.

(** ** Methods that leave the data of the pipeline alone *)

Lemma emit_same_data (e : event) : steps same_data (emit e).
Proof. by intros s. Qed.

Lemma check_signals_same_data : steps same_data check_signals.
Proof. intros s. unfold check_signals. by destruct (sigint s) as [[| k] |]. Qed.

Lemma for_each_emit {A : Type} (l : list A) (f : A → event) (s : Pipeline) :
  for_each l (λ x, emit (f x)) s = (set_log (log s ++ (f <$> l)) s, Return ()).
Proof.
  revert s. induction l as [| x l IH]; intros s; simpl.
  - unfold mret, M_ret. f_equal. rewrite app_nil_r. by destruct s.
  - unfold mbind, M_bind. simpl. rewrite IH. simpl. f_equal.
    by rewrite <- app_assoc.
Qed.

(** *** Methods that write no event of a kind [P] *)

Lemma same_log_emits_no (P : event → bool) (s s' : Pipeline) :
  log s' = log s → emits_no P s s'.
Proof. intros H. exists []. by rewrite app_nil_r. Qed.

Lemma emit_emits_no (P : event → bool) (e : event) :
  P e = false → steps (emits_no P) (emit e).
Proof. intros H s. exists [e]. split; [done | by constructor]. Qed.

Lemma check_signals_emits_no (P : event → bool) :
  steps (emits_no P) check_signals.
Proof.
  intros s. apply same_log_emits_no. unfold check_signals.
  by destruct (sigint s) as [[| k] |].
Qed.

Lemma modify_emits_no (P : event → bool) (f : Pipeline → Pipeline) :
  (∀ s, log (f s) = log s) → steps (emits_no P) (modify f).
Proof. intros H s. apply same_log_emits_no. apply H. Qed.

Lemma emulator_call_emits_no {A : Type} (P : event → bool) (method : string)
  (emul_i : nat)
  (f : emulator * gmap nat Group → (emulator * gmap nat Group) * result A) :
  P (EmulCall method emul_i) = false →
  steps (emits_no P) (emulator_call method emul_i f).
Proof.
  intros H s. unfold emulator_call. simpl.
  destruct (f (_emulator s, file s)) as [ef r]. simpl.
  exists [EmulCall method emul_i]. split; [done | by constructor].
Qed.

Lemma file_group_steps (R : relation Pipeline) `{!PreOrder R} (emul_i : nat) :
  steps R (file_group emul_i).
Proof. unfold file_group. steps_tac. Qed.

Lemma read_attr_steps (R : relation Pipeline) `{!PreOrder R} {A : Type}
  (a : option A) : steps R (read_attr a).
Proof. unfold read_attr. steps_tac. Qed.

End PipelineMethods.

#[global] Hint Resolve emit_same_data check_signals_same_data
  check_signals_emits_no file_group_steps read_attr_steps : steps.
#[global] Hint Extern 1 (steps (emits_no _) (emit _)) =>
  apply emit_emits_no; reflexivity : steps.
#[global] Hint Extern 1 (steps (emits_no _) (modify _)) =>
  apply modify_emits_no; intros ?; reflexivity : steps.
#[global] Hint Extern 1 (steps (emits_no _) (emulator_call _ _ _)) =>
  apply emulator_call_emits_no; reflexivity : steps.

Section EmitsNo.
Context `{ML : ModelLink} `{EM : Emulator} `{LIB : Libraries}.
Context (P : event → bool).

Lemma update_group_emits_no (emul_i : nat) (upd : Group → Group) :
  steps (emits_no P) (update_group emul_i upd).
Proof. unfold update_group. steps_tac. Qed.

Lemma create_dataset_emits_no (emul_i : nat) (data : list sample) :
  steps (emits_no P) (create_dataset_impl_sam emul_i data).
Proof. unfold create_dataset_impl_sam. steps_tac. Qed.

Hint Resolve update_group_emits_no create_dataset_emits_no : steps.

Lemma del_dataset_emits_no (emul_i : nat) :
  steps (emits_no P) (del_dataset_impl_sam emul_i).
Proof. unfold del_dataset_impl_sam. steps_tac. Qed.

Lemma assign_item_emits_no {A : Type} (get : Pipeline → list A)
  (set : list A → Pipeline → Pipeline) (emul_i : nat) (x : A) :
  (∀ l s, log (set l s) = log s) →
  steps (emits_no P) (assign_item get set emul_i x).
Proof.
  intros H. unfold assign_item. steps_tac. apply modify_emits_no. apply H.
Qed.

Lemma append_item_emits_no {A : Type} (get : Pipeline → list A)
  (set : list A → Pipeline → Pipeline) (x : A) :
  (∀ l s, log (set l s) = log s) →
  steps (emits_no P) (append_item get set x).
Proof. intros H. apply modify_emits_no. intros s. apply H. Qed.

End EmitsNo.

#[global] Hint Resolve update_group_emits_no create_dataset_emits_no
  del_dataset_emits_no : steps.
#[global] Hint Extern 1 (steps (emits_no _) (assign_item _ _ _ _)) =>
  apply assign_item_emits_no; intros ? ?; reflexivity : steps.
#[global] Hint Extern 1 (steps (emits_no _) (append_item _ _ _)) =>
  apply append_item_emits_no; intros ? ?; reflexivity : steps.

Section SaveDataEvents.
Context `{ML : ModelLink} `{EM : Emulator} `{LIB : Libraries}.

(** [_save_data] writes log records of its own only. *)
Lemma save_item_at_emits_no (P : event → bool) (emul_i : nat)
  (item : save_item) :
  (∀ msg, P (LogError "SAVE_DATA" msg) = false) →
  steps (emits_no P) (save_item_at emul_i item).
Proof.
  intros HP. unfold save_item_at. destruct item; steps_tac.
  apply emit_emits_no, HP.
Qed.

Lemma _save_data_emits_no (P : event → bool) (data_dict : list save_item) :
  (∀ msg, P (LogError "SAVE_DATA" msg) = false) →
  (∀ msg, P (LogInfo "SAVE_DATA" msg) = false) →
  steps (emits_no P) (_save_data data_dict).
Proof.
  intros HP1 HP2. unfold _save_data. steps_tac.
  - apply emit_emits_no, HP2.
  - by apply save_item_at_emits_no.
Qed.

End SaveDataEvents.

#[global] Hint Extern 1 (steps (emits_no _) (save_item_at _ _)) =>
  apply save_item_at_emits_no; intros ?; reflexivity : steps.
#[global] Hint Extern 1 (steps (emits_no _) (_save_data _)) =>
  apply _save_data_emits_no; intros ?; reflexivity : steps.

Section ResumesMethods.
Context `{ML : ModelLink} `{EM : Emulator} `{LIB : Libraries}.

Lemma _save_statistics_resumes (emul_i : nat) (keywords : list string) :
  steps resumes (_save_statistics emul_i keywords).
Proof. unfold _save_statistics. steps_tac. Qed.

Hint Resolve _save_statistics_resumes : steps.

Lemma _get_impl_cut_resumes (impl_cut : list float) (temp : bool) :
  steps resumes (_get_impl_cut impl_cut temp).
Proof. unfold _get_impl_cut. steps_tac. Qed.

Hint Resolve _get_impl_cut_resumes : steps.

Lemma _get_impl_par_resumes (temp : bool) : steps resumes (_get_impl_par temp).
Proof. unfold _get_impl_par. steps_tac. Qed.

Lemma _get_eval_sam_set_resumes (emul_i : nat) :
  steps resumes (_get_eval_sam_set emul_i).
Proof. unfold _get_eval_sam_set. steps_tac. Qed.

Lemma details_resumes (emul_i : option nat) : steps resumes (details emul_i).
Proof. unfold details. steps_tac. Qed.

Lemma analyze_sample_resumes (iterations : list nat) (par_set : sample) :
  steps resumes (analyze_sample iterations par_set).
Proof.
  induction iterations as [| j rest IH]; simpl; steps_tac.
Qed.

Hint Resolve analyze_sample_resumes : steps.

Lemma analyze_samples_resumes (emul_i i : nat) (eval_sam_set : list sample)
  (impl_idx : list nat) :
  steps resumes (analyze_samples emul_i i eval_sam_set impl_idx).
Proof.
  revert i impl_idx. induction eval_sam_set as [| par_set rest IH];
    intros i impl_idx; simpl; steps_tac; apply IH.
Qed.

Hint Resolve _get_impl_par_resumes _get_eval_sam_set_resumes details_resumes
  analyze_samples_resumes : steps.

Lemma analyze_try_resumes (emul_i : nat) : steps resumes (analyze_try emul_i).
Proof. unfold analyze_try. steps_tac. Qed.

Lemma analyze_begin_resumes : steps resumes analyze_begin.
Proof. unfold analyze_begin. steps_tac. Qed.

Hint Resolve analyze_try_resumes analyze_begin_resumes : steps.

Lemma analyze_resumes : steps resumes analyze.
Proof. unfold analyze. steps_tac. Qed.

Hint Resolve analyze_resumes : steps.

(** A construction that is not from the start produces none of the events
    of one that is. *)
Lemma construct_iteration_resumes (emul_i : nat) (do_analyze : bool)
  (ext_init_set : option (list sample * list (list float))) :
  steps resumes (construct_iteration emul_i false do_analyze ext_init_set).
Proof. unfold construct_iteration. steps_tac. Qed.

End ResumesMethods.

#[global] Hint Resolve _save_statistics_resumes _get_impl_cut_resumes _get_impl_par_resumes
  _get_eval_sam_set_resumes details_resumes analyze_sample_resumes
  analyze_samples_resumes analyze_try_resumes analyze_begin_resumes
  analyze_resumes : steps.

Create HintDb never_raises.

(** Decomposes a goal [never_raises e m] along the structure of [m]. *)
Ltac never_raises_tac :=
  repeat first
    [ apply never_raises_ret | apply never_raises_gets
    | apply never_raises_modify
    | apply never_raises_raise; discriminate
    | assumption
    | solve [auto with never_raises]
    | apply never_raises_bind; [| intros ?]
    | apply never_raises_try_finally
    | apply never_raises_try_except
    | apply never_raises_try_except_else; [| | intros ?]
    | apply never_raises_for_each; intros ?
    | progress case_match ].

Section SaveData.
Context `{ML : ModelLink} `{EM : Emulator} `{LIB : Libraries}.

(** ** [_save_data] is never interrupted *)

Lemma assign_item_not_interrupted {A : Type} (get : Pipeline → list A)
  (set : list A → Pipeline → Pipeline) (emul_i : nat) (x : A) :
  never_raises KeyboardInterrupt (assign_item get set emul_i x).
Proof.
  unfold assign_item. never_raises_tac.
  apply never_raises_lift. intros H. by apply setitem_Raise in H.
Qed.

Hint Resolve assign_item_not_interrupted : never_raises.

Lemma save_item_at_not_interrupted (emul_i : nat) (item : save_item) :
  never_raises KeyboardInterrupt (save_item_at emul_i item).
Proof.
  unfold save_item_at, append_item, update_group, del_dataset_impl_sam,
    create_dataset_impl_sam, update_group, file_group, emit.
  destruct item; never_raises_tac.
Qed.

Lemma _save_data_not_interrupted (data_dict : list save_item) :
  never_raises KeyboardInterrupt (_save_data data_dict).
Proof.
  unfold _save_data. never_raises_tac. apply save_item_at_not_interrupted.
Qed.

(** ** What the keywords of [_save_data] leave alone *)

Lemma update_group_view {V : Type} (view : Group → V) (R : relation Pipeline)
  `{!PreOrder R} (emul_i : nat) (upd : Group → Group) :
  (∀ s f, view <$> f = view <$> file s → R s (set_file f s)) →
  (∀ g, view (upd g) = view g) →
  steps R (update_group emul_i upd).
Proof.
  intros HR Hupd s. unfold update_group, file_group, mbind, M_bind. simpl.
  destruct (file s !! emul_i) as [g |] eqn:Hg; simpl; [| reflexivity].
  apply HR. rewrite fmap_insert, Hupd. apply insert_id.
  by rewrite lookup_fmap, Hg.
Qed.

Lemma set_file_same_but_cuts (s : Pipeline) (f : gmap nat Group) :
  forget_cuts <$> f = forget_cuts <$> file s → same_but_cuts s (set_file f s).
Proof. intros H. by repeat split. Qed.

Lemma set_file_same_impl_sam (s : Pipeline) (f : gmap nat Group) :
  impl_sam_of <$> f = impl_sam_of <$> file s → same_impl_sam s (set_file f s).
Proof. intros H. by repeat split. Qed.

Lemma emit_same_but_cuts (e : event) : steps same_but_cuts (emit e).
Proof.
  eapply steps_weaken; [apply same_data_same_but_cuts | apply emit_same_data].
Qed.

Lemma modify_same_but_cuts (f : Pipeline → Pipeline) :
  (∀ s, same_but_cuts s (f s)) → steps same_but_cuts (modify f).
Proof. apply steps_modify. Qed.

Lemma modify_same_impl_sam (f : Pipeline → Pipeline) :
  (∀ s, same_impl_sam s (f s)) → steps same_impl_sam (modify f).
Proof. apply steps_modify. Qed.

End SaveData.

#[global] Hint Resolve emit_same_but_cuts : steps.
#[global] Hint Extern 1 (steps same_but_cuts (modify _)) =>
  apply modify_same_but_cuts; intros ?; by repeat split : steps.
#[global] Hint Extern 1 (steps same_impl_sam (modify _)) =>
  apply modify_same_impl_sam; intros ?; by repeat split : steps.
#[global] Hint Extern 1 (steps same_but_cuts (update_group _ _)) =>
  apply (update_group_view forget_cuts);
    [typeclasses eauto .. | apply set_file_same_but_cuts | by intros ?] : steps.
#[global] Hint Extern 1 (steps same_impl_sam (update_group _ _)) =>
  apply (update_group_view impl_sam_of);
    [typeclasses eauto .. | apply set_file_same_impl_sam | by intros ?] : steps.

Section SaveDataFrames.
Context `{ML : ModelLink} `{EM : Emulator} `{LIB : Libraries}.

(** Saving the cut-offs touches nothing but the cut-offs. *)
Lemma save_impl_cut_same_but_cuts (emul_i : nat) (impl_cut : list float)
  (cut_idx : nat) :
  steps same_but_cuts (save_item_at emul_i (impl_cut_item impl_cut cut_idx)).
Proof.
  unfold save_item_at, assign_item, append_item. steps_tac.
Qed.

Hint Resolve save_impl_cut_same_but_cuts : steps.

Lemma _get_impl_cut_same_but_cuts (impl_cut : list float) (temp : bool) :
  steps same_but_cuts (_get_impl_cut impl_cut temp).
Proof.
  unfold _get_impl_cut, _save_data, append_item. steps_tac.
Qed.

Hint Resolve _get_impl_cut_same_but_cuts : steps.

Lemma _get_impl_par_same_but_cuts (temp : bool) :
  steps same_but_cuts (_get_impl_par temp).
Proof. unfold _get_impl_par. steps_tac. Qed.

Hint Resolve _get_impl_par_same_but_cuts : steps.

Lemma analyze_begin_same_but_cuts : steps same_but_cuts analyze_begin.
Proof. unfold analyze_begin. steps_tac. Qed.

(** The keywords other than ['impl_sam'] leave the plausible samples, their
    count and [prc] alone. *)
Lemma save_item_at_same_impl_sam (emul_i : nat) (item : save_item) :
  (∀ data, item ≠ impl_sam_item data) →
  steps same_impl_sam (save_item_at emul_i item).
Proof.
  intros Hitem. destruct item as [impl_cut cut_idx | data | n | keyword].
  - eapply steps_weaken; [apply same_but_cuts_same_impl_sam |].
    apply save_impl_cut_same_but_cuts.
  - by destruct (Hitem data).
  - unfold save_item_at, assign_item, append_item. steps_tac.
  - unfold save_item_at, emit. steps_tac.
Qed.

End SaveDataFrames.

#[global] Hint Resolve save_impl_cut_same_but_cuts _get_impl_cut_same_but_cuts
  _get_impl_par_same_but_cuts analyze_begin_same_but_cuts : steps.

Section Analysis.
Context `{ML : ModelLink} `{EM : Emulator} `{LIB : Libraries}.

(** ** The evaluation of the samples changes no data *)

Lemma _get_eval_sam_set_same_data (emul_i : nat) :
  steps same_data (_get_eval_sam_set emul_i).
Proof. unfold _get_eval_sam_set. steps_tac. Qed.

Lemma analyze_sample_same_data (iterations : list nat) (par_set : sample) :
  steps same_data (analyze_sample iterations par_set).
Proof. induction iterations as [| j rest IH]; simpl; steps_tac. Qed.

Hint Resolve _get_eval_sam_set_same_data analyze_sample_same_data : steps.

Lemma analyze_samples_same_data (emul_i i : nat) (eval_sam_set : list sample)
  (impl_idx : list nat) :
  steps same_data (analyze_samples emul_i i eval_sam_set impl_idx).
Proof.
  revert i impl_idx. induction eval_sam_set as [| par_set rest IH];
    intros i impl_idx; simpl; steps_tac; apply IH.
Qed.

Hint Resolve analyze_samples_same_data : steps.

(** An interrupt of the [try] block of [analyze] finds the data as they were
    when the block was entered: it arrives before anything is saved. *)
Lemma analyze_try_interrupted (emul_i : nat) :
  steps_on KeyboardInterrupt same_data (analyze_try emul_i).
Proof.
  unfold analyze_try.
  apply steps_on_bind; [typeclasses eauto | steps_tac |]. intros eval_sam_set.
  apply steps_on_bind; [typeclasses eauto | steps_tac |]. intros em.
  apply steps_on_bind; [typeclasses eauto | steps_tac |]. intros impl_idx.
  apply never_raises_steps_on. apply never_raises_bind.
  - apply _save_data_not_interrupted.
  - intros _. apply never_raises_ret.
Qed.

(** ** The checks depend on the data only *)

Lemma same_data_impl_check_at (s s' : Pipeline) :
  same_data s s' → impl_check_at s' = impl_check_at s.
Proof.
  unfold same_data, data_of. intros H.
  injection H as H1 H2 H3 H4 H5 H6 H7 H8 H9 H10 H11 H12.
  unfold impl_check_at, _do_impl_check. by rewrite H6, H7, H11.
Qed.

Lemma same_data_passes_at (s s' : Pipeline) :
  same_data s s' → passes_at s' = passes_at s.
Proof. intros H. unfold passes_at. by rewrite (same_data_impl_check_at s s'). Qed.

Lemma same_data_evaluated_at (s s' : Pipeline) (par_set : sample)
  (iterations : list nat) :
  same_data s s' →
  evaluated_at s' par_set iterations = evaluated_at s par_set iterations.
Proof.
  intros H. apply same_data_passes_at in H.
  induction iterations as [| j rest IH]; simpl; [done |]. by rewrite H, IH.
Qed.

Lemma same_data_passing_idx (s s' : Pipeline) (emul_i i : nat)
  (sam_set : list sample) :
  same_data s s' →
  passing_idx s' emul_i i sam_set = passing_idx s emul_i i sam_set.
Proof.
  intros H. apply same_data_passes_at in H. revert i.
  induction sam_set as [| par_set rest IH]; intros i; simpl; [done |].
  by rewrite H, !IH.
Qed.

(** ** What the loops of [analyze] compute *)

Lemma check_signals_Return (s s' : Pipeline) :
  check_signals s = (s', Return ()) → same_data s s' ∧ log s' = log s.
Proof.
  unfold check_signals. destruct (sigint s) as [[| k] |]; [done | |];
    by intros [= <-].
Qed.

Lemma analyze_sample_cons (j : nat) (rest : list nat) (par_set : sample)
  (s : Pipeline) :
  analyze_sample (j :: rest) par_set s =
  match check_signals s with
  | (s1, Raise e) => (s1, Raise e)
  | (s1, Return _) =>
      let s2 := set_log (log s1 ++ [EmulEvaluate j par_set]) s1 in
      match impl_check_at s2 j par_set with
      | Raise e => (s2, Raise e)
      | Return check =>
          if check.1 then analyze_sample rest par_set s2 else (s2, Return false)
      end
  end.
Proof.
  cbn [analyze_sample]. unfold mbind, M_bind at 1.
  destruct (check_signals s) as [s1 [[] | e]]; [| done].
  unfold mbind, M_bind, emit, modify, gets, lift, id. cbn.
  destruct (impl_check_at _ j par_set) as [[[] v] | e]; done.
Qed.

(** The inner loop: the sample passes when it passes every iteration, and
    the emulator is evaluated up to the first failing iteration. *)
Lemma analyze_sample_Return (iterations : list nat) (par_set : sample)
  (s s' : Pipeline) (passed : bool) :
  analyze_sample iterations par_set s = (s', Return passed) →
  same_data s s' ∧
  passed = forallb (passes_at s par_set) iterations ∧
  log s' = log s ++
    ((λ j, EmulEvaluate j par_set) <$> evaluated_at s par_set iterations).
Proof.
  revert s passed. induction iterations as [| j rest IH]; intros s passed.
  { intros [= <- <-]. by rewrite app_nil_r. }
  rewrite analyze_sample_cons.
  destruct (check_signals s) as [s1 [[] | e]] eqn:Hsig; [| done].
  apply check_signals_Return in Hsig as [Hd Hl].
  set (s2 := set_log (log s1 ++ [EmulEvaluate j par_set]) s1).
  assert (Hd2 : same_data s s2) by (etrans; [exact Hd | done]).
  cbn zeta. cbn [forallb evaluated_at]. unfold passes_at at 1 3.
  rewrite <- (same_data_impl_check_at s s2 Hd2).
  destruct (impl_check_at s2 j par_set) as [[[] v] | e]; [| | done]; cbn [fst].
  - intros H. apply IH in H as (Hd3 & -> & Hlog). split; [by etrans |].
    rewrite (same_data_passes_at s s2 Hd2) in *.
    rewrite (same_data_evaluated_at s s2 _ _ Hd2) in Hlog.
    split; [done |]. rewrite Hlog. subst s2. cbn [log set_log].
    by rewrite Hl, <- app_assoc.
  - intros [= <- <-]. split; [done |]. split; [done |].
    subst s2. cbn [log set_log fmap list_fmap]. by rewrite Hl.
Qed.

(** The outer loop: the indices of the samples that pass are appended, and
    the samples are evaluated in order. *)
Lemma analyze_samples_Return (emul_i : nat) (eval_sam_set : list sample)
  (i : nat) (impl_idx impl_idx' : list nat) (s s' : Pipeline) :
  analyze_samples emul_i i eval_sam_set impl_idx s = (s', Return impl_idx') →
  same_data s s' ∧
  impl_idx' = impl_idx ++ passing_idx s emul_i i eval_sam_set ∧
  log s' = log s ++
    flat_map (λ par_set, (λ j, EmulEvaluate j par_set) <$>
                           evaluated_at s par_set (seq 1 emul_i)) eval_sam_set.
Proof.
  revert i impl_idx s.
  induction eval_sam_set as [| par_set rest IH]; intros i impl_idx s.
  { intros [= <- <-]. by rewrite !app_nil_r. }
  cbn [analyze_samples]. intros H.
  apply bind_inv in H as [(s1 & passed & Hs & H) | (e & _ & ?)]; [| done].
  apply analyze_sample_Return in Hs as (Hd1 & -> & Hl1).
  apply IH in H as (Hd2 & -> & Hl2). split; [by etrans |].
  cbn [passing_idx flat_map].
  rewrite (same_data_passing_idx s s1 _ _ _ Hd1). split.
  - destruct (forallb _ _); [by rewrite <- app_assoc | done].
  - rewrite Hl2, Hl1, <- app_assoc. do 2 f_equal.
    apply flat_map_ext. intros p. by rewrite (same_data_evaluated_at s s1).
Qed.

(** The rows at the passing indices are the samples that pass. *)
Lemma take_rows_passing_idx (s : Pipeline) (emul_i : nat)
  (before sam_set : list sample) :
  take_rows (before ++ sam_set) (passing_idx s emul_i (length before) sam_set) =
  filter (λ par_set, forallb (passes_at s par_set) (seq 1 emul_i) = true) sam_set.
Proof.
  revert before. induction sam_set as [| par_set rest IH]; intros before.
  { done. }
  cbn [passing_idx]. rewrite filter_cons.
  assert (Hrest : take_rows (before ++ par_set :: rest)
            (passing_idx s emul_i (S (length before)) rest) =
          filter (λ p, forallb (passes_at s p) (seq 1 emul_i) = true) rest).
  { specialize (IH (before ++ [par_set])).
    rewrite length_app, <- app_assoc in IH. simpl in IH.
    by rewrite Nat.add_1_r in IH. }
  destruct (forallb (passes_at s par_set) (seq 1 emul_i)) eqn:Hp.
  - rewrite decide_True by done. unfold take_rows in *. cbn [omap list_omap].
    rewrite list_lookup_middle by done. by rewrite Hrest.
  - rewrite decide_False by done. exact Hrest.
Qed.

Lemma emul_evaluations_app (l1 l2 : list event) :
  emul_evaluations (l1 ++ l2) = emul_evaluations l1 ++ emul_evaluations l2.
Proof. apply omap_app. Qed.

Lemma emul_evaluations_fmap (par_set : sample) (l : list nat) :
  emul_evaluations ((λ j, EmulEvaluate j par_set) <$> l) =
  (λ j, (j, par_set)) <$> l.
Proof. induction l as [| j l IH]; [done |]. cbn. by rewrite <- IH. Qed.

Lemma emul_evaluations_flat_map {A : Type} (f : A → list nat) (g : A → sample)
  (l : list A) :
  emul_evaluations (flat_map (λ x, (λ j, EmulEvaluate j (g x)) <$> f x) l) =
  flat_map (λ x, (λ j, (j, g x)) <$> f x) l.
Proof.
  induction l as [| x l IH]; [done |]. cbn [flat_map].
  by rewrite emul_evaluations_app, emul_evaluations_fmap, IH.
Qed.

End Analysis.

#[global] Hint Resolve _get_eval_sam_set_same_data analyze_sample_same_data
  analyze_samples_same_data : steps.

Section SaveImplSam.
Context `{ML : ModelLink} `{EM : Emulator} `{LIB : Libraries}.

(** ** The HDF5-file *)

Lemma update_group_Some (emul_i : nat) (upd : Group → Group) (s : Pipeline)
  (g : Group) :
  file s !! emul_i = Some g →
  update_group emul_i upd s =
  (set_file (<[emul_i := upd g]> (file s)) s, Return ()).
Proof.
  intros H. unfold update_group, file_group, mbind, M_bind. simpl. by rewrite H.
Qed.

Lemma update_group_None (emul_i : nat) (upd : Group → Group) (s : Pipeline) :
  file s !! emul_i = None → update_group emul_i upd s = (s, Raise KeyError).
Proof.
  intros H. unfold update_group, file_group, mbind, M_bind. simpl. by rewrite H.
Qed.

Lemma assign_item_lt {A : Type} (get : Pipeline → list A)
  (set : list A → Pipeline → Pipeline) (emul_i : nat) (x : A) (s : Pipeline) :
  (emul_i < length (get s))%nat →
  assign_item get set emul_i x s = (set (<[emul_i := x]> (get s)) s, Return ()).
Proof.
  intros H. unfold assign_item, setitem, mbind, M_bind. simpl.
  by rewrite decide_True.
Qed.

Lemma assign_item_ge {A : Type} (get : Pipeline → list A)
  (set : list A → Pipeline → Pipeline) (emul_i : nat) (x : A) (s : Pipeline) :
  (length (get s) ≤ emul_i)%nat →
  assign_item get set emul_i x s = (s, Raise IndexError).
Proof.
  intros H. unfold assign_item, setitem, mbind, M_bind. simpl.
  rewrite decide_False by lia. done.
Qed.

Lemma del_dataset_Some (emul_i : nat) (s : Pipeline) (g : Group)
  (old : list sample) :
  file s !! emul_i = Some g → dset_impl_sam g = Some old →
  del_dataset_impl_sam emul_i s =
  (set_file (<[emul_i := set_dset_impl_sam None g]> (file s)) s, Return ()).
Proof.
  intros Hg Hold. unfold del_dataset_impl_sam, file_group.
  unfold mbind at 1, M_bind at 1, mbind at 1, M_bind at 1. simpl.
  rewrite Hg. simpl. rewrite Hold. by apply update_group_Some.
Qed.

Lemma del_dataset_Raise (emul_i : nat) (s : Pipeline) :
  (file s !! emul_i) ≫= dset_impl_sam = None →
  del_dataset_impl_sam emul_i s = (s, Raise KeyError).
Proof.
  intros H. unfold del_dataset_impl_sam, file_group.
  unfold mbind at 1, M_bind at 1, mbind at 1, M_bind at 1. simpl.
  destruct (file s !! emul_i) as [g |]; simpl in *; [| done]. by rewrite H.
Qed.

Lemma create_dataset_None (emul_i : nat) (data : list sample) (s : Pipeline) :
  (file s !! emul_i) ≫= dset_impl_sam = None →
  create_dataset_impl_sam emul_i data s =
  (set_file (<[emul_i := set_dset_impl_sam (Some data)
                           (default empty_group (file s !! emul_i))]> (file s)) s,
   Return ()).
Proof.
  intros H. unfold create_dataset_impl_sam.
  unfold mbind at 1, M_bind at 1. simpl.
  destruct (file s !! emul_i) as [g |]; simpl in *; [by rewrite H | done].
Qed.

Lemma create_dataset_Raise (emul_i : nat) (data : list sample) (s : Pipeline)
  (old : list sample) :
  (file s !! emul_i) ≫= dset_impl_sam = Some old →
  create_dataset_impl_sam emul_i data s = (s, Raise RuntimeError).
Proof.
  intros H. unfold create_dataset_impl_sam.
  unfold mbind at 1, M_bind at 1. simpl.
  destruct (file s !! emul_i) as [g |]; simpl in *; [by rewrite H | done].
Qed.

(** ** Saving the plausible samples *)

(** The [finally] block of the keyword ['impl_sam']. *)
Lemma save_impl_sam_finally (emul_i : nat) (prc : bool) (data : list sample)
  (n_impl_sam : nat) (s : Pipeline) :
  (modify (set_prc (Some prc));;
   modify (set_impl_sam (Some data));;
   update_group emul_i (set_attrs_prc prc);;
   update_group emul_i (set_attrs_n_impl_sam n_impl_sam)) s =
  let s1 := set_impl_sam (Some data) (set_prc (Some prc) s) in
  match file s !! emul_i with
  | Some g =>
      (set_file (<[emul_i := set_attrs_n_impl_sam n_impl_sam
                               (set_attrs_prc prc g)]> (file s)) s1, Return ())
  | None => (s1, Raise KeyError)
  end.
Proof.
  unfold mbind, M_bind, modify. cbv zeta.
  destruct (file s !! emul_i) as [g |] eqn:Hg.
  - rewrite (update_group_Some _ _ _ g) by done.
    rewrite (update_group_Some _ _ _ (set_attrs_prc prc g))
      by apply lookup_insert_eq.
    f_equal. unfold set_file, set_emulator_file. simpl. f_equal.
    apply insert_insert_eq.
  - by rewrite update_group_None.
Qed.

Lemma try_finally_Raise {A : Type} (body : M A) (final : M ()) (s s1 : Pipeline)
  (e : exn) :
  body s = (s1, Raise e) → ∃ e', (try_finally body final s).2 = Raise e'.
Proof.
  intros H. unfold try_finally. rewrite H.
  destruct (final s1) as [s2 [[] | e']]; by eexists.
Qed.

Lemma try_finally_Return {A : Type} (body : M A) (final : M ())
  (s s1 s2 : Pipeline) (r : result A) :
  body s = (s1, r) → final s1 = (s2, Return ()) →
  try_finally body final s = (s2, r).
Proof. intros H1 H2. unfold try_finally. by rewrite H1, H2. Qed.

(** The [try ... except IndexError ... else] block of the keyword
    ['impl_sam'], when the iteration has an entry in [_n_impl_sam] and a data
    set in the file. *)
Lemma save_impl_sam_body_again (emul_i : nat) (data : list sample)
  (s : Pipeline) (g : Group) (old : list sample) :
  (emul_i < length (_n_impl_sam s))%nat →
  file s !! emul_i = Some g → dset_impl_sam g = Some old →
  try_except_else
    (assign_item _n_impl_sam set_n_impl_sam emul_i (Some (length data)))
    IndexError
    (create_dataset_impl_sam emul_i data;;
     append_item _n_impl_sam set_n_impl_sam (Some (length data)))
    (λ _, del_dataset_impl_sam emul_i;; create_dataset_impl_sam emul_i data) s =
  (set_file (<[emul_i := set_dset_impl_sam (Some data) g]> (file s))
     (set_n_impl_sam (<[emul_i := Some (length data)]> (_n_impl_sam s)) s),
   Return ()).
Proof.
  intros Hlt Hg Hold. unfold try_except_else.
  rewrite assign_item_lt by done.
  erewrite bind_Return; [| by eapply del_dataset_Some].
  rewrite create_dataset_None.
  - f_equal. unfold set_file, set_emulator_file. simpl. f_equal.
    rewrite lookup_insert_eq. simpl. apply insert_insert_eq.
  - simpl. by rewrite lookup_insert_eq.
Qed.

(** The same block when the iteration has neither. *)
Lemma save_impl_sam_body_first (emul_i : nat) (data : list sample)
  (s : Pipeline) :
  (length (_n_impl_sam s) ≤ emul_i)%nat →
  (file s !! emul_i) ≫= dset_impl_sam = None →
  try_except_else
    (assign_item _n_impl_sam set_n_impl_sam emul_i (Some (length data)))
    IndexError
    (create_dataset_impl_sam emul_i data;;
     append_item _n_impl_sam set_n_impl_sam (Some (length data)))
    (λ _, del_dataset_impl_sam emul_i;; create_dataset_impl_sam emul_i data) s =
  (set_n_impl_sam (_n_impl_sam s ++ [Some (length data)])
     (set_file (<[emul_i := set_dset_impl_sam (Some data)
                   (default empty_group (file s !! emul_i))]> (file s)) s),
   Return ()).
Proof.
  intros Hge Hnone. unfold try_except_else.
  rewrite assign_item_ge by done. rewrite decide_True by done.
  erewrite bind_Return; [| by apply create_dataset_None]. done.
Qed.

(** The block fails in the two other cases. *)
Lemma save_impl_sam_body_Raise (emul_i : nat) (data : list sample)
  (s : Pipeline) :
  ((emul_i < length (_n_impl_sam s))%nat ∧
   (file s !! emul_i) ≫= dset_impl_sam = None) ∨
  ((length (_n_impl_sam s) ≤ emul_i)%nat ∧
   is_Some ((file s !! emul_i) ≫= dset_impl_sam)) →
  ∃ s1 e,
    try_except_else
      (assign_item _n_impl_sam set_n_impl_sam emul_i (Some (length data)))
      IndexError
      (create_dataset_impl_sam emul_i data;;
       append_item _n_impl_sam set_n_impl_sam (Some (length data)))
      (λ _, del_dataset_impl_sam emul_i;; create_dataset_impl_sam emul_i data) s
    = (s1, Raise e).
Proof.
  intros [[Hlt Hnone] | [Hge [old Hold]]]; unfold try_except_else.
  - rewrite assign_item_lt by done.
    erewrite bind_Raise; [by eexists _, _ |]. by apply del_dataset_Raise.
  - rewrite assign_item_ge by done. rewrite decide_True by done.
    erewrite bind_Raise; [by eexists _, _ |]. by eapply create_dataset_Raise.
Qed.

(** What a save under ['impl_sam'] leaves when it returns. *)
Lemma save_impl_sam_Return (emul_i : nat) (data : list sample)
  (s s' : Pipeline) :
  save_item_at emul_i (impl_sam_item data) s = (s', Return ()) →
  _prc s' = Some (bool_decide (length data ≠ 0%nat)) ∧
  _impl_sam s' = Some data ∧
  _n_impl_sam s' =
    (if decide (emul_i < length (_n_impl_sam s))%nat
     then <[emul_i := Some (length data)]> (_n_impl_sam s)
     else _n_impl_sam s ++ [Some (length data)]) ∧
  _emulator s' = _emulator s ∧
  ∃ g, file s' !! emul_i = Some g ∧ dset_impl_sam g = Some data ∧
       attrs_prc g = Some (bool_decide (length data ≠ 0%nat)) ∧
       attrs_n_impl_sam g = Some (length data).
Proof.
  unfold save_item_at. cbv zeta.
  destruct (decide (emul_i < length (_n_impl_sam s))%nat) as [Hlt | Hge].
  - destruct ((file s !! emul_i) ≫= dset_impl_sam) as [old |] eqn:Hd.
    + destruct (file s !! emul_i) as [g |] eqn:Hg; [| done]. simpl in Hd.
      unfold try_finally.
      rewrite (save_impl_sam_body_again _ _ _ g old) by done.
      rewrite save_impl_sam_finally. cbv zeta.
      cbn [file set_file set_emulator_file set_n_impl_sam snd].
      rewrite lookup_insert_eq. intros [= <-].
      repeat split. eexists. split; [apply lookup_insert_eq | done].
    + destruct (save_impl_sam_body_Raise emul_i data s) as (s1 & e & Hb);
        [by left |].
      intros Hs. eapply try_finally_Raise in Hb as [e' He'].
      by rewrite Hs in He'.
  - destruct ((file s !! emul_i) ≫= dset_impl_sam) as [old |] eqn:Hd.
    + destruct (save_impl_sam_body_Raise emul_i data s) as (s1 & e & Hb);
        [right; split; [lia | by eexists] |].
      intros Hs. eapply try_finally_Raise in Hb as [e' He'].
      by rewrite Hs in He'.
    + unfold try_finally.
      rewrite save_impl_sam_body_first by (done || lia).
      rewrite save_impl_sam_finally. cbv zeta.
      cbn [file set_file set_emulator_file set_n_impl_sam snd].
      rewrite lookup_insert_eq. intros [= <-].
      repeat split. eexists. split; [apply lookup_insert_eq | done].
Qed.

(** A save under ['impl_sam'] returns when the list [_n_impl_sam] and the
    file agree on whether the iteration was saved before. *)
Lemma save_impl_sam_total (emul_i : nat) (data : list sample) (s : Pipeline) :
  ((emul_i < length (_n_impl_sam s))%nat ↔
   is_Some ((file s !! emul_i) ≫= dset_impl_sam)) →
  ∃ s', save_item_at emul_i (impl_sam_item data) s = (s', Return ()).
Proof.
  intros H. unfold save_item_at. cbv zeta. unfold try_finally.
  destruct (decide (emul_i < length (_n_impl_sam s))%nat) as [Hlt | Hge].
  - destruct (proj1 H Hlt) as [old Hd].
    destruct (file s !! emul_i) as [g |] eqn:Hg; [| done]. simpl in Hd.
    rewrite (save_impl_sam_body_again _ _ _ g old) by done.
    rewrite save_impl_sam_finally. cbv zeta.
    cbn [file set_file set_emulator_file set_n_impl_sam snd].
    rewrite lookup_insert_eq. by eexists.
  - destruct ((file s !! emul_i) ≫= dset_impl_sam) as [old |] eqn:Hd.
    { destruct Hge. apply H. by eexists. }
    rewrite save_impl_sam_body_first by (done || lia).
    rewrite save_impl_sam_finally. cbv zeta.
    cbn [file set_file set_emulator_file set_n_impl_sam snd].
    rewrite lookup_insert_eq. by eexists.
Qed.

End SaveImplSam.

Section Construct.
Context `{ML : ModelLink} `{EM : Emulator} `{LIB : Libraries}.

(** ** The decisions of [construct] *)

Lemma resolve_emul_i_state (emul_i : option nat) (s : Pipeline) :
  (resolve_emul_i emul_i s).1 = s.
Proof.
  unfold resolve_emul_i, mbind, M_bind. simpl.
  destruct emul_i as [[| [| i]] |]; simpl; try done;
    by destruct (_get_emul_i _ _).
Qed.

(** [check_state] computes [c_from_start] and only writes to the log. *)
Lemma check_state_spec (emul_i : nat) (force : bool) (s : Pipeline) :
  ∃ s', check_state emul_i force s =
          (s', Return (c_from_start (_emulator s) emul_i force)) ∧
        same_data s s' ∧ resumes s s'.
Proof.
  unfold check_state, c_from_start, try_except, try_except_else, getitem.
  unfold mbind, M_bind. simpl. destruct force; simpl.
  { eexists. split; [done |]. split; [done |].
    eexists [_; _]. split; [by rewrite <- app_assoc | by repeat constructor]. }
  destruct (_ccheck (_emulator s) !! emul_i) as [ccheck |]; simpl.
  - destruct (bool_decide ("mod_real_set" ∈ ccheck)); simpl;
      (eexists; split; [done |]; split; [done |]);
      eexists [_; _]; (split; [by rewrite <- app_assoc | by repeat constructor]).
  - eexists. split; [done |]. split; [done |].
    eexists [_; _]. split; [by rewrite <- app_assoc | by repeat constructor].
Qed.

Lemma construct_eq (req : option nat) (do_analyze : bool)
  (ext_init_set : option (list sample * list (list float))) (force : bool)
  (s : Pipeline) (emul_i : nat) :
  (resolve_emul_i req s).2 = Return emul_i →
  ∃ s0, check_state emul_i force s =
          (s0, Return (c_from_start (_emulator s) emul_i force)) ∧
        same_data s s0 ∧ resumes s s0 ∧
        construct req do_analyze ext_init_set force s =
        construct_iteration emul_i (c_from_start (_emulator s) emul_i force)
          do_analyze ext_init_set s0.
Proof.
  intros Hr. destruct (check_state_spec emul_i force s) as (s0 & Hc & Hd & Hl).
  exists s0. repeat split; try done. unfold construct.
  pose proof (resolve_emul_i_state req s) as Hs.
  destruct (resolve_emul_i req s) as [s1 r] eqn:Hres. simpl in *. subst.
  erewrite bind_Return by done. by erewrite bind_Return by done.
Qed.

(** ** Construction from the start of a later iteration *)

Lemma emit_eq (e : event) (s : Pipeline) :
  emit e s = (set_log (log s ++ [e]) s, Return ()).
Proof. done. Qed.

(** The previous iteration was analyzed and no plausible region was found:
    the construction is refused and no data are changed. *)
Lemma construct_from_start_refused (emul_i : nat)
  (ext_init_set : option (list sample * list (list float))) (s : Pipeline)
  (n : option nat) :
  emul_i ≠ 1%nat →
  _n_eval_sam s !! (emul_i - 1)%nat = Some n → not_analyzed n = false →
  _prc s = Some false →
  ∃ s', construct_from_start emul_i ext_init_set s = (s', Raise RequestError) ∧
        same_data s s'.
Proof.
  intros Hi Hn Ha Hprc. unfold construct_from_start.
  rewrite decide_False by done. unfold start_next_iteration.
  unfold mbind at 1, M_bind at 1. rewrite emit_eq.
  unfold mbind at 1, M_bind at 1, mbind at 1, M_bind at 1.
  unfold _get_ext_real_set at 1, mret at 1, M_ret at 1.
  unfold mbind at 1, M_bind at 1, gets at 1.
  unfold mbind at 1, M_bind at 1, lift at 1, getitem.
  cbn [_n_eval_sam set_log]. rewrite Hn.
  unfold mbind at 1, M_bind at 1, gets at 1.
  unfold mbind at 1, M_bind at 1. rewrite Ha. rewrite for_each_emit.
  unfold mbind at 1, M_bind at 1, gets at 1. cbn [_prc set_log]. rewrite Hprc.
  unfold mbind at 1, M_bind at 1. rewrite emit_eq. unfold raise.
  eexists. split; [done | done].
Qed.

(** The previous iteration was not analyzed: it is analyzed first, and the
    flag [prc] that decides is the one this analysis leaves. *)
Lemma construct_from_start_analyzes (emul_i : nat)
  (ext_init_set : option (list sample * list (list float))) (s : Pipeline)
  (n : option nat) :
  emul_i ≠ 1%nat →
  _n_eval_sam s !! (emul_i - 1)%nat = Some n → not_analyzed n = true →
  ∃ s0, same_data s s0 ∧
    log s0 = log s ++
      [LogInfo "CONSTRUCT" "Starting construction of emulator iteration."] ++
      ((λ rank, MpiSend true rank) <$> seq 1 (_size s - 1)) ++
      [LogInfo "CONSTRUCT" "Previous emulator iteration has not been analyzed. Performing analysis first."] ∧
    (∀ s1 e, analyze s0 = (s1, Raise e) →
       construct_from_start emul_i ext_init_set s = (s1, Raise e)) ∧
    (∀ s1, analyze s0 = (s1, Return ()) → _prc s1 = Some false →
       ∃ s', construct_from_start emul_i ext_init_set s =
               (s', Raise RequestError) ∧ same_data s1 s').
Proof.
  intros Hi Hn Ha.
  remember (construct_from_start emul_i ext_init_set s) as run eqn:Hrun.
  unfold construct_from_start in Hrun.
  rewrite decide_False in Hrun by done. unfold start_next_iteration in Hrun.
  unfold mbind at 1, M_bind at 1 in Hrun. rewrite emit_eq in Hrun.
  unfold mbind at 1, M_bind at 1, mbind at 1, M_bind at 1 in Hrun.
  unfold _get_ext_real_set at 1, mret at 1, M_ret at 1 in Hrun.
  unfold mbind at 1, M_bind at 1, gets at 1 in Hrun.
  unfold mbind at 1, M_bind at 1, lift at 1, getitem in Hrun.
  cbn [_n_eval_sam set_log] in Hrun. rewrite Hn in Hrun.
  unfold mbind at 1, M_bind at 1, gets at 1 in Hrun.
  unfold mbind at 1, M_bind at 1 in Hrun. rewrite Ha in Hrun.
  unfold mbind at 1, M_bind at 1 in Hrun. rewrite for_each_emit in Hrun.
  unfold mbind at 1, M_bind at 1 in Hrun. rewrite emit_eq in Hrun.
  cbn [_size log set_log] in Hrun.
  match type of Hrun with context [analyze ?x] => exists x end.
  split; [done |]. split; [cbn [log set_log]; by rewrite <- !app_assoc |].
  split.
  - intros s1 e Han. by rewrite Han in Hrun.
  - intros s1 Han Hprc. rewrite Han in Hrun.
    unfold mbind at 1, M_bind at 1, gets at 1 in Hrun. rewrite Hprc in Hrun.
    unfold mbind at 1, M_bind at 1 in Hrun. rewrite emit_eq in Hrun.
    unfold raise in Hrun. subst run. eexists. split; [done | done].
Qed.

(** ** Model evaluation *)

(** When [_evaluate_model] returns, the last record of the log says so. *)
Lemma _evaluate_model_Return (emul_i : nat) (sam_set ext_sam_set : list sample)
  (ext_mod_set : list (list float)) (s s' : Pipeline) :
  _evaluate_model emul_i sam_set ext_sam_set ext_mod_set s = (s', Return ()) →
  ∃ events,
    log s' = events ++ [LogInfo "MODEL" "Finished evaluating model samples."].
Proof.
  unfold _evaluate_model. intros H.
  repeat (apply bind_inv in H as [(? & ? & _ & H) | (? & _ & ?)]; [| done]).
  rewrite emit_eq in H. injection H as <-. by eexists.
Qed.

Lemma construct_from_start_Return (emul_i : nat)
  (ext_init_set : option (list sample * list (list float))) (s s' : Pipeline) :
  construct_from_start emul_i ext_init_set s = (s', Return ()) →
  ∃ events,
    log s' = events ++ [LogInfo "MODEL" "Finished evaluating model samples."].
Proof.
  unfold construct_from_start. intros H.
  repeat (apply bind_inv in H as [(? & ? & _ & H) | (? & _ & ?)]; [| done]).
  destruct (_ : option (list sample)); [| done].
  by eapply _evaluate_model_Return.
Qed.

End Construct.

(** * Part III: the properties stated about the pipeline *)

(** ** Shared facts *)

Lemma float_eqb_eq (x y : float) : float_eqb x y = true ↔ x == y.
Proof. apply Qeq_bool_iff. Qed.

Lemma float_gtb_leb (x y : float) : negb (float_gtb x y) = float_leb x y.
Proof. unfold float_gtb, float_leb. apply negb_involutive. Qed.

(** The scan passes over pairs whose cut-off is the wildcard. *)
Lemma impl_check_scan_wildcards (pairs : list (float * float)) :
  Forall (λ p, p.2 == 0) pairs → impl_check_scan pairs = true.
Proof.
  induction 1 as [| [impl_val cut_val] rest Hcut _ IH]; [done |].
  simpl in *. apply nonzero_eq in Hcut. by rewrite Hcut.
Qed.

(** The loop that checks the variances one by one. *)
Lemma check_md_var_loop (md_var : list float) :
  for_result (λ (_ : ()) value, check_nneg_float value ≫= λ _, Return ())
    md_var () =
  if forallb (float_leb 0) md_var then Return () else Raise ValueError.
Proof.
  induction md_var as [| v rest IH]; [done |]. cbn [for_result forallb].
  assert (check_nneg_float v =
          if float_leb 0 v then Return v else Raise ValueError) as -> by done.
  destruct (float_leb 0 v); [apply IH | done].
Qed.

Lemma forallb_nneg (md_var : list float) :
  forallb (float_leb 0) md_var = true ↔ Forall (λ v, 0 <= v) md_var.
Proof.
  rewrite forallb_forall, Forall_forall. split; intros H v Hv.
  - apply float_leb_le, H. by apply list_elem_of_In.
  - apply float_leb_le, H. by apply list_elem_of_In.
Qed.

Lemma inherit_from_zeros (prev : float) (rest : list float) :
  prev == 0 → Forall (λ c, c == 0) rest →
  Forall (λ c, c == 0) (inherit_from prev rest).
Proof.
  intros Hprev Hrest. revert prev Hprev.
  induction Hrest as [| c rest Hc _ IH]; intros prev Hprev; [constructor |].
  simpl. apply float_eqb_eq in Hc. rewrite Hc.
  constructor; [done | by apply IH].
Qed.

Lemma resolved_zeros (impl_cut : list float) :
  Forall (λ c, c == 0) impl_cut → Forall (λ c, c == 0) (resolved impl_cut).
Proof.
  destruct 1 as [| c rest Hc Hrest]; [constructor |].
  simpl. constructor; [done | by apply inherit_from_zeros].
Qed.

(** An all-wildcard list is rejected. *)
Lemma get_impl_cut_zeros (impl_cut : list float) :
  impl_cut ≠ [] → Forall (λ c, c == 0) impl_cut →
  get_impl_cut impl_cut = Raise ValueError.
Proof.
  intros Hne Hzeros. destruct (get_impl_cut impl_cut) as [[full k] | e] eqn:Hget.
  - apply get_impl_cut_Return in Hget as (-> & _ & Hfirst).
    rewrite first_real_cut_zeros in Hfirst; [done | by apply resolved_zeros].
  - f_equal. by apply (get_impl_cut_Raise impl_cut).
Qed.

(** A cut-off that is higher than the one before it is rejected. *)
Lemma get_impl_cut_higher (impl_cut : list float) (i : nat) (c p : float) :
  impl_cut !! S i = Some c → resolved impl_cut !! i = Some p →
  ¬ c == 0 → ¬ p == 0 → p < c →
  get_impl_cut impl_cut = Raise ValueError.
Proof.
  intros Hc Hp Hc0 Hp0 Hlt.
  destruct (get_impl_cut impl_cut) as [[full k] | e] eqn:Hget.
  - apply get_impl_cut_Return in Hget as (-> & Hinh & _).
    pose proof (resolved_lookup_S impl_cut i c Hc) as HS.
    destruct (float_eqb c 0) eqn:Heq; [by apply float_eqb_eq in Heq |].
    destruct (Hinh i p c Hp HS Hp0) as [_ Hle].
    by apply Qlt_not_le in Hlt.
  - f_equal. apply (get_impl_cut_Raise impl_cut); [| done].
    intros ->. done.
Qed.

(** The entries of an accepted list before [cut_idx] are wildcards, and the
    entry at [cut_idx] is the first real cut-off of the list as given. *)
Lemma get_impl_cut_leading (impl_cut full : list float) (cut_idx : nat) :
  get_impl_cut impl_cut = Return (full, cut_idx) →
  (∀ j c, (j < cut_idx)%nat → impl_cut !! j = Some c → c == 0) ∧
  ∃ x, impl_cut !! cut_idx = Some x ∧ full !! cut_idx = Some x ∧ ¬ x == 0.
Proof.
  intros Hget. apply get_impl_cut_Return in Hget as (-> & _ & Hfirst).
  apply first_real_cut_spec in Hfirst as (_ & (x & Hx & Hx0) & Hbefore).
  rewrite Nat.sub_0_r in Hx.
  assert (Hzero : ∀ j c, (j < cut_idx)%nat → impl_cut !! j = Some c → c == 0).
  { intros j c Hj Hc. destruct j as [| j].
    - apply (Hbefore 0%nat); [lia |]. by destruct impl_cut.
    - pose proof (resolved_lookup_S impl_cut j c Hc) as HS.
      destruct (float_eqb c 0) eqn:Heq; [by apply float_eqb_eq |].
      apply (Hbefore (S j)); [lia | done]. }
  split; [done |]. exists x. split; [| done].
  destruct cut_idx as [| k]; [by destruct impl_cut |].
  assert (is_Some (impl_cut !! S k)) as [c Hc].
  { apply lookup_lt_is_Some. rewrite <- resolved_length.
    by apply lookup_lt_is_Some. }
  pose proof (resolved_lookup_S impl_cut k c Hc) as HS.
  destruct (float_eqb c 0) eqn:Heq; [| congruence].
  exfalso. apply Hx0. apply (Hbefore k); [lia | congruence].
Qed.

(** ** The implausibility cut-off check *)

Section ImplCheck.
Context `{EM : Emulator}.

Lemma _do_impl_check_eq (obj : Pipeline) (emul_i cut_idx : nat)
  (impl_cut uni_impl_val : list float) :
  _cut_idx obj !! emul_i = Some (Some cut_idx) →
  _impl_cut obj !! emul_i = Some impl_cut →
  _do_impl_check obj emul_i uni_impl_val =
  do_impl_check impl_cut cut_idx uni_impl_val.
Proof.
  intros Hidx Hcut. unfold _do_impl_check, do_impl_check.
  rewrite (getitem_Some _ _ _ Hidx). simpl.
  destruct (getitem (np_flip (np_sort uni_impl_val)) cut_idx); [| done].
  simpl. by rewrite (getitem_Some _ _ _ Hcut).
Qed.

Lemma do_impl_check_first (c : float) (cuts uni_impl_val : list float)
  (v : float) (rest : list float) :
  np_flip (np_sort uni_impl_val) = v :: rest →
  do_impl_check (c :: cuts) 0 uni_impl_val =
  Return (if nonzero c && float_gtb v c then false
          else impl_check_scan (zip rest cuts), v).
Proof. intros H. unfold do_impl_check. by rewrite H. Qed.

(** C3, as the code has it: [_do_impl_check] sorts the implausibility values
    in descending order; when the sorted list has an entry at [cut_idx], the
    check returns that entry, and it fails exactly when at some position the
    cut-off is not the wildcard 0 and the sorted value is strictly above it,
    whatever the values at the wildcard positions are; the scan stops at the
    first such position, so the pairs after it do not matter.  When the list
    of values has no entry at [cut_idx], no check is done: the method raises
    [IndexError]. *)
Theorem _do_impl_check_sorted (obj : Pipeline) (emul_i cut_idx : nat)
  (impl_cut uni_impl_val : list float) :
  _cut_idx obj !! emul_i = Some (Some cut_idx) →
  _impl_cut obj !! emul_i = Some impl_cut →
  let sorted_impl_val := np_flip (np_sort uni_impl_val) in
  Permutation sorted_impl_val uni_impl_val ∧
  StronglySorted (λ x y, y <= x) sorted_impl_val ∧
  _do_impl_check obj emul_i uni_impl_val =
    match sorted_impl_val !! cut_idx with
    | Some impl_cut_val =>
        Return (negb (existsb exceeds (zip sorted_impl_val impl_cut)),
                impl_cut_val)
    | None => Raise IndexError
    end ∧
  (sorted_impl_val !! cut_idx = None ↔ (length uni_impl_val ≤ cut_idx)%nat) ∧
  (existsb exceeds (zip sorted_impl_val impl_cut) = true ↔
   ∃ i impl_val cut_val,
     sorted_impl_val !! i = Some impl_val ∧ impl_cut !! i = Some cut_val ∧
     ¬ cut_val == 0 ∧ cut_val < impl_val) ∧
  (∀ before after, impl_check_scan before = false →
     impl_check_scan (before ++ after) = false) ∧
  (∀ pairs, Forall (λ p, p.2 == 0) pairs → impl_check_scan pairs = true).
Proof.
  intros Hidx Hcut sorted_impl_val. subst sorted_impl_val.
  split; [apply np_flip_sort_perm |].
  split; [apply np_flip_sort_sorted |].
  split.
  { rewrite (_do_impl_check_eq _ _ _ _ _ Hidx Hcut). unfold do_impl_check.
    unfold getitem.
    destruct (np_flip (np_sort uni_impl_val) !! cut_idx); [| done].
    simpl. by rewrite impl_check_scan_existsb. }
  split.
  { rewrite lookup_ge_None, np_flip_sort_length. done. }
  split; [apply existsb_exceeds_zip |].
  split.
  - intros before after H. by rewrite impl_check_scan_app, H.
  - apply impl_check_scan_wildcards.
Qed.

(** C4, as the code has it: with the cut-offs [3.5, 0, 0] and [cut_idx] 0,
    the values [3.6, 1.0, 0.5] fail the check and so do [3.4, 5.0, 5.0],
    which are sorted to [5.0, 5.0, 3.4] before they are compared; the values
    [3.4, 1.0, 0.5] pass.  A sample passes exactly when its largest value is
    at most 3.5, and the check returns that largest value. *)
Theorem _do_impl_check_example (obj : Pipeline) (emul_i : nat) :
  _cut_idx obj !! emul_i = Some (Some 0%nat) →
  _impl_cut obj !! emul_i = Some [3.5; 0; 0] →
  _do_impl_check obj emul_i [3.6; 1.0; 0.5] = Return (false, 3.6) ∧
  np_flip (np_sort [3.4; 5.0; 5.0]) = [5.0; 5.0; 3.4] ∧
  _do_impl_check obj emul_i [3.4; 5.0; 5.0] = Return (false, 5.0) ∧
  _do_impl_check obj emul_i [3.4; 1.0; 0.5] = Return (true, 3.4) ∧
  ∀ uni_impl_val, uni_impl_val ≠ [] →
    ∃ impl_cut_val,
      _do_impl_check obj emul_i uni_impl_val =
        Return (float_leb impl_cut_val 3.5, impl_cut_val) ∧
      impl_cut_val ∈ uni_impl_val ∧
      ∀ x, x ∈ uni_impl_val → x <= impl_cut_val.
Proof.
  intros Hidx Hcut.
  repeat split;
    try (rewrite (_do_impl_check_eq _ _ _ _ _ Hidx Hcut); by vm_compute).
  intros uni_impl_val Hne.
  rewrite (_do_impl_check_eq _ _ _ _ _ Hidx Hcut).
  pose proof (np_flip_sort_perm uni_impl_val) as Hperm.
  pose proof (np_flip_sort_sorted uni_impl_val) as Hsorted.
  destruct (np_flip (np_sort uni_impl_val)) as [| v rest] eqn:Hs.
  { apply Permutation_nil in Hperm. done. }
  exists v. split; [| split].
  - rewrite (do_impl_check_first _ _ _ _ _ Hs). f_equal. f_equal.
    assert (nonzero 3.5 = true) as -> by done.
    rewrite <- float_gtb_leb. destruct (float_gtb v 3.5); [done |].
    apply impl_check_scan_wildcards.
    destruct rest as [| a [| b [| c rest']]]; simpl;
      repeat (apply List.Forall_cons; [reflexivity |]); apply List.Forall_nil.
  - rewrite <- Hperm. by left.
  - intros x Hx. rewrite <- Hperm in Hx.
    apply elem_of_cons in Hx as [-> | Hx]; [apply Qle_refl |].
    apply StronglySorted_inv in Hsorted as [_ Hall].
    rewrite Forall_forall in Hall. by apply Hall.
Qed.

End ImplCheck.

(** ** The completion of the cut-off list *)

Section ImplCut.
Context `{ML : ModelLink} `{EM : Emulator} `{LIB : Libraries}.

(** A list that the completion rejects is stored nowhere. *)
Lemma _get_impl_cut_Raise (impl_cut : list float) (temp : bool) (e : exn)
  (s : Pipeline) :
  get_impl_cut impl_cut = Raise e →
  ∃ s', _get_impl_cut impl_cut temp s = (s', Raise e) ∧ same_data s s'.
Proof.
  intros H. unfold _get_impl_cut, mbind, M_bind. simpl. rewrite H. simpl.
  by eexists.
Qed.

Lemma _get_impl_par_Raise (impl_cut : list float) (temp : bool) (e : exn)
  (s : Pipeline) :
  par_impl_cut s = Some impl_cut → get_impl_cut impl_cut = Raise e →
  ∃ s', _get_impl_par temp s = (s', Raise e) ∧ same_data s s'.
Proof.
  intros Hpar H. unfold _get_impl_par.
  rewrite (bind_Return _ _ s _ () (emit_eq _ s)).
  erewrite bind_Return by reflexivity. simpl. rewrite Hpar. simpl.
  destruct (_get_impl_cut_Raise impl_cut temp e
              (set_log (log s ++
                 [LogInfo "INIT" "Obtaining implausibility analysis parameters."]) s) H)
    as (s' & Hrun & Hsame).
  exists s'. split; [by erewrite bind_Raise by exact Hrun |].
  by etrans.
Qed.

(** An accepted list is stored with its [cut_idx]. *)
Lemma _get_impl_cut_temp (impl_cut full : list float) (cut_idx : nat)
  (s : Pipeline) :
  get_impl_cut impl_cut = Return (full, cut_idx) →
  ∃ s', _get_impl_cut impl_cut true s = (s', Return ()) ∧
        _impl_cut s' = _impl_cut s ++ [full] ∧
        _cut_idx s' = _cut_idx s ++ [Some cut_idx].
Proof.
  intros H. unfold _get_impl_cut, mbind, M_bind. simpl. rewrite H. simpl.
  by eexists.
Qed.

(** C5: when [_get_impl_cut] accepts a list, the list it stores has the
    first entry as given and every later entry either as given or, where 0
    was given, equal to the stored entry before it; [cut_idx] is the index of
    the first non-zero entry, and from [cut_idx] on the stored entries are
    non-zero and non-increasing.  A list in which a non-wildcard entry is
    higher than the non-wildcard completed entry before it is rejected with
    [ValueError], as [3.5, 0, 4.0] is. *)
Theorem _get_impl_cut_completion (impl_cut : list float) :
  (∀ full cut_idx, get_impl_cut impl_cut = Return (full, cut_idx) →
     length full = length impl_cut ∧ full !! 0%nat = impl_cut !! 0%nat ∧
     (∀ i c, impl_cut !! S i = Some c →
        full !! S i = if float_eqb c 0 then full !! i else Some c) ∧
     (∃ x, full !! cut_idx = Some x ∧ ¬ x == 0) ∧
     (∀ j y, (j < cut_idx)%nat → full !! j = Some y → y == 0) ∧
     (∀ i j x y, (cut_idx ≤ i ≤ j)%nat →
        full !! i = Some x → full !! j = Some y → ¬ y == 0 ∧ y <= x) ∧
     ∀ s, ∃ s', _get_impl_cut impl_cut true s = (s', Return ()) ∧
                _impl_cut s' = _impl_cut s ++ [full] ∧
                _cut_idx s' = _cut_idx s ++ [Some cut_idx]) ∧
  (∀ i c p, impl_cut !! S i = Some c → resolved impl_cut !! i = Some p →
     ¬ c == 0 → ¬ p == 0 → p < c →
     get_impl_cut impl_cut = Raise ValueError ∧
     ∀ temp s, ∃ s', _get_impl_cut impl_cut temp s = (s', Raise ValueError) ∧
                     same_data s s') ∧
  get_impl_cut [3.5; 0; 4.0] = Raise ValueError.
Proof.
  split; [| split]; [| | done].
  - intros full cut_idx Hget.
    pose proof (get_impl_cut_Return _ _ _ Hget) as (-> & Hinh & Hfirst).
    apply first_real_cut_spec in Hfirst as (_ & (x0 & Hx0 & Hnz) & Hbefore).
    rewrite Nat.sub_0_r in Hx0, Hbefore.
    split; [apply resolved_length |]. split; [by destruct impl_cut |].
    split; [apply resolved_lookup_S |]. split; [by exists x0 |].
    split; [done |]. split; [| intros s; by apply _get_impl_cut_temp].
    intros i j x y [Hi Hj] Hx Hy.
    assert (¬ x == 0) as Hxnz.
    { apply (inherits_from_real _ _ _ Hinh Hx0 Hnz (i - cut_idx)%nat).
      by replace (cut_idx + (i - cut_idx))%nat with i by lia. }
    apply (inherits_from_real _ _ _ Hinh Hx Hxnz (j - i)%nat).
    by replace (i + (j - i))%nat with j by lia.
  - intros i c p Hc Hp Hc0 Hp0 Hlt.
    pose proof (get_impl_cut_higher _ _ _ _ Hc Hp Hc0 Hp0 Hlt) as Hraise.
    split; [done |]. intros temp s. by apply _get_impl_cut_Raise.
Qed.

(** C6, as the code has it: a first entry that is 0 is accepted.  The
    default list [0, 4.0, 3.8, 3.5] is stored as it is, with [cut_idx] 1; in
    every accepted list the entries before [cut_idx] are the wildcards that
    were given and the entry at [cut_idx] is the first non-zero entry that
    was given.  A list of wildcards only is rejected with [ValueError], by
    [_get_impl_cut] and so by [_get_impl_par] when it reads the list from
    the parameters. *)
Theorem _get_impl_cut_wildcards :
  get_impl_cut default_impl_cut = Return ([0; 4.0; 3.8; 3.5], 1%nat) ∧
  (∀ impl_cut full cut_idx, get_impl_cut impl_cut = Return (full, cut_idx) →
     (∀ j c, (j < cut_idx)%nat → impl_cut !! j = Some c → c == 0) ∧
     (∀ j y, (j < cut_idx)%nat → full !! j = Some y → y == 0) ∧
     ∃ x, impl_cut !! cut_idx = Some x ∧ full !! cut_idx = Some x ∧
          ¬ x == 0) ∧
  (∀ impl_cut, impl_cut ≠ [] → Forall (λ c, c == 0) impl_cut →
     get_impl_cut impl_cut = Raise ValueError ∧
     ∀ temp s, par_impl_cut s = Some impl_cut →
       ∃ s', _get_impl_par temp s = (s', Raise ValueError) ∧ same_data s s').
Proof.
  split; [done |]. split.
  - intros impl_cut full cut_idx Hget.
    destruct (get_impl_cut_leading _ _ _ Hget) as [Hzero Hx].
    split; [done |]. split; [| done].
    apply get_impl_cut_Return in Hget as (_ & _ & Hfirst).
    apply first_real_cut_spec in Hfirst as (_ & _ & Hbefore).
    by rewrite Nat.sub_0_r in Hbefore.
  - intros impl_cut Hne Hzeros.
    pose proof (get_impl_cut_zeros _ Hne Hzeros) as Hraise.
    split; [done |]. intros temp s Hpar. by apply (_get_impl_par_Raise impl_cut).
Qed.

End ImplCut.

(** ** The model discrepancy variance *)

Section MdVar.
Context `{ML : ModelLink} `{EM : Emulator} `{LIB : Libraries}.

(** The variances that [_get_md_var] checks. *)
Lemma _get_md_var_checked (em : emulator) (emul_i : nat)
  (md_var : list float) :
  try_result
    (data_idx ← getitem (_data_idx em) emul_i; get_md_var emul_i data_idx)
    NotImplementedError
    (data_val ← getitem (_data_val em) emul_i;
     Return ((λ v, pow2 (v / 6)) <$> (data_val : list float))) =
  Return md_var →
  _get_md_var em emul_i =
  if forallb (float_leb 0) md_var then Return md_var else Raise ValueError.
Proof.
  intros H. unfold _get_md_var. rewrite H. simpl.
  rewrite check_md_var_loop. by destruct (forallb (float_leb 0) md_var).
Qed.

Lemma default_md_var_nneg (data_val : list float) :
  forallb (float_leb 0) ((λ v, pow2 (v / 6)) <$> data_val) = true.
Proof.
  apply forallb_nneg, Forall_fmap, Forall_forall. intros v _.
  apply pow2_nonneg.
Qed.

(** C9: when [get_md_var] of the [ModelLink] raises [NotImplementedError],
    [_get_md_var] returns the square of a sixth of every data value, and
    [_get_uni_impl] computes the implausibilities with these variances.
    Whatever [_get_md_var] returns has no negative value; variances of the
    [ModelLink] without a negative value are returned as they are, the ones
    of [GaussianLink] among them, and variances of the [ModelLink] with a
    negative value raise [ValueError]. *)
Theorem _get_md_var_default (em : emulator) (emul_i : nat) :
  (∀ data_idx data_val,
     _data_idx em !! emul_i = Some data_idx →
     get_md_var emul_i data_idx = Raise NotImplementedError →
     _data_val em !! emul_i = Some data_val →
     _get_md_var em emul_i = Return ((λ v, pow2 (v / 6)) <$> data_val) ∧
     ∀ adj_exp_val adj_var_val,
       _get_uni_impl em emul_i adj_exp_val adj_var_val =
       (n_data ← getitem (_n_data em) emul_i;
        uni_impl_val_sq ←
          for_result
            (uni_impl_sq_step em emul_i adj_exp_val adj_var_val
               ((λ v, pow2 (v / 6)) <$> data_val))
            (seq 0 n_data) (replicate n_data 0);
        Return (np_sqrt <$> (uni_impl_val_sq : list float)))) ∧
  (∀ md_var, _get_md_var em emul_i = Return md_var →
     Forall (λ v, 0 <= v) md_var) ∧
  (∀ data_idx md_var,
     _data_idx em !! emul_i = Some data_idx →
     get_md_var emul_i data_idx = Return md_var →
     (Forall (λ v, 0 <= v) md_var →
      _get_md_var em emul_i = Return md_var) ∧
     (Exists (λ v, v < 0) md_var →
      _get_md_var em emul_i = Raise ValueError)) ∧
  (∀ data_idx,
     _data_idx em !! emul_i = Some data_idx →
     get_md_var emul_i data_idx = GaussianLink_get_md_var emul_i data_idx →
     _get_md_var em emul_i =
     Return (replicate (length data_idx) (pow2 (0.1 * 1)))).
Proof.
  assert (Hsupplied : ∀ data_idx md_var,
    _data_idx em !! emul_i = Some data_idx →
    get_md_var emul_i data_idx = Return md_var →
    _get_md_var em emul_i =
    if forallb (float_leb 0) md_var then Return md_var else Raise ValueError).
  { intros data_idx md_var Hidx Hget. apply _get_md_var_checked.
    rewrite (getitem_Some _ _ _ Hidx). simpl. by rewrite Hget. }
  split; [| split; [| split]].
  - intros data_idx data_val Hidx Hget Hval.
    assert (_get_md_var em emul_i = Return ((λ v, pow2 (v / 6)) <$> data_val))
      as Hmd.
    { rewrite (_get_md_var_checked _ _ ((λ v, pow2 (v / 6)) <$> data_val)).
      - by rewrite default_md_var_nneg.
      - rewrite (getitem_Some _ _ _ Hidx). simpl. rewrite Hget. simpl.
        by rewrite (getitem_Some _ _ _ Hval). }
    split; [done |]. intros adj_exp_val adj_var_val.
    unfold _get_uni_impl. by rewrite Hmd.
  - intros md_var Hret. unfold _get_md_var in Hret.
    destruct (try_result _ _ _) as [md_var' | e]; [| done]. simpl in Hret.
    rewrite check_md_var_loop in Hret.
    destruct (forallb (float_leb 0) md_var') eqn:Hall; [| done].
    injection Hret as <-. by apply forallb_nneg.
  - intros data_idx md_var Hidx Hget.
    rewrite (Hsupplied _ _ Hidx Hget). split.
    + intros Hall. apply forallb_nneg in Hall. by rewrite Hall.
    + intros Hex. destruct (forallb (float_leb 0) md_var) eqn:Hall; [| done].
      apply forallb_nneg in Hall. apply Exists_exists in Hex as (v & Hv & Hlt).
      rewrite Forall_forall in Hall. apply Hall in Hv.
      by apply Qlt_not_le in Hlt.
  - intros data_idx Hidx Hget.
    rewrite (Hsupplied data_idx (replicate (length data_idx) (pow2 (0.1 * 1)))
               Hidx);
      [| rewrite Hget; unfold GaussianLink_get_md_var; by rewrite fmap_replicate].
    assert (forallb (float_leb 0)
              (replicate (length data_idx) (pow2 (0.1 * 1))) = true) as ->;
      [| done].
    apply forallb_nneg, Forall_replicate, pow2_nonneg.
Qed.

End MdVar.

(** ** Saving the plausible samples *)

Section SaveImplSamInvariant.
Context `{ML : ModelLink} `{EM : Emulator} `{LIB : Libraries}.

(** [_save_data] with a single keyword. *)
Lemma _save_data_singleton (item : save_item) (s : Pipeline) :
  _save_data [item] s =
  (save_item_at (_emul_i (_emulator s)) item ≫= λ _, mret ())
    (set_log (log s ++ [LogInfo "SAVE_DATA" "Saving data to HDF5."]) s).
Proof. done. Qed.

Lemma prc_nonempty {A : Type} (data : list A) :
  bool_decide (length data ≠ 0%nat) = bool_decide (data ≠ []).
Proof. apply bool_decide_ext. by destruct data. Qed.

(** C10: in a pipeline whose list [_n_impl_sam] has an entry for the last
    iteration exactly when the file has the data set of that iteration,
    saving the keyword ['impl_sam'] returns, and afterwards the flag [prc],
    in memory and in the file, tells whether the saved array has a row,
    [n_impl_sam], in memory and in the file, is the number of its rows, and
    [impl_sam], in memory and in the file, is the array.  Saving any other
    keyword leaves the three alone. *)
Theorem _save_data_impl_sam (s : Pipeline) (data : list sample) :
  ((_emul_i (_emulator s) < length (_n_impl_sam s))%nat ↔
   is_Some ((file s !! _emul_i (_emulator s)) ≫= dset_impl_sam)) →
  (_emul_i (_emulator s) ≤ length (_n_impl_sam s))%nat →
  (∃ s' g,
     _save_data [impl_sam_item data] s = (s', Return ()) ∧
     _prc s' = Some (bool_decide (data ≠ [])) ∧
     _impl_sam s' = Some data ∧
     _n_impl_sam s' !! _emul_i (_emulator s) = Some (Some (length data)) ∧
     file s' !! _emul_i (_emulator s) = Some g ∧
     attrs_prc g = Some (bool_decide (data ≠ [])) ∧
     attrs_n_impl_sam g = Some (length data) ∧
     dset_impl_sam g = Some data ∧
     (bool_decide (data ≠ []) = true ↔ (0 < length data)%nat)) ∧
  (∀ item, (∀ data', item ≠ impl_sam_item data') →
     same_impl_sam s (_save_data [item] s).1).
Proof.
  intros Hcoherent Hle. split.
  - set (emul_i := _emul_i (_emulator s)) in *.
    set (s1 := set_log (log s ++ [LogInfo "SAVE_DATA" "Saving data to HDF5."]) s).
    destruct (save_impl_sam_total emul_i data s1 Hcoherent) as [s' Hsave].
    destruct (save_impl_sam_Return _ _ _ _ Hsave)
      as (Hprc & Hsam & Hn & _ & g & Hg & Hdset & Hgprc & Hgn).
    rewrite prc_nonempty in Hprc, Hgprc.
    exists s', g. rewrite _save_data_singleton. fold emul_i s1.
    rewrite (bind_Return _ _ _ _ _ Hsave).
    repeat split; try done.
    + rewrite Hn. simpl. destruct (decide (emul_i < length (_n_impl_sam s))%nat).
      * by apply list_lookup_insert_eq.
      * replace emul_i with (length (_n_impl_sam s)) by lia.
        apply list_lookup_middle. done.
    + intros Hb. apply bool_decide_eq_true in Hb. destruct data; [done |].
      simpl. lia.
    + intros Hlen. apply bool_decide_eq_true. intros ->. simpl in Hlen. lia.
  - intros item Hitem. rewrite _save_data_singleton.
    set (s1 := set_log _ s).
    assert (same_impl_sam s s1) as H1 by done.
    etrans; [exact H1 |].
    pose proof (save_item_at_same_impl_sam (_emul_i (_emulator s)) item Hitem s1)
      as H2.
    unfold mbind, M_bind.
    by destruct (save_item_at (_emul_i (_emulator s)) item s1) as [s2 [[] | e]].
Qed.

End SaveImplSamInvariant.

(** ** The analysis of an iteration *)

Section Analyze.
Context `{ML : ModelLink} `{EM : Emulator} `{LIB : Libraries}.

Lemma steps_run (R : relation Pipeline) {A : Type} (m : M A)
  (s s' : Pipeline) (r : result A) :
  steps R m → m s = (s', r) → R s s'.
Proof. intros Hm Hrun. specialize (Hm s). by rewrite Hrun in Hm. Qed.

Lemma emul_evaluations_none (events : list event) :
  Forall (λ e, is_emul_evaluate e = false) events →
  emul_evaluations events = [].
Proof.
  induction 1 as [| e events He _ IH]; [done |].
  change (e :: events) with ([e] ++ events).
  rewrite emul_evaluations_app, IH. by destruct e.
Qed.

(** A sample is evaluated at an iteration exactly when it passed the checks
    of all the iterations before it. *)
Lemma evaluated_at_seq (obj : Pipeline) (par_set : sample) (n a j : nat) :
  j ∈ evaluated_at obj par_set (seq a n) ↔
  (a ≤ j < a + n)%nat ∧
  ∀ k, (a ≤ k < j)%nat → passes_at obj par_set k = true.
Proof.
  revert a. induction n as [| n IH]; intros a; simpl.
  { split; [by intros ?%elem_of_nil | lia]. }
  rewrite elem_of_cons. split.
  - intros [-> | Hj]; [split; [lia | intros k; lia] |].
    destruct (passes_at obj par_set a) eqn:Hpass; [| by apply elem_of_nil in Hj].
    apply IH in Hj as [Hrange Hbefore]. split; [lia |].
    intros k Hk. destruct (decide (k = a)) as [-> | Hne]; [done |].
    apply Hbefore. lia.
  - intros [Hrange Hbefore].
    destruct (decide (j = a)) as [-> | Hne]; [by left | right].
    rewrite (Hbefore a) by lia. apply IH. split; [lia |].
    intros k Hk. apply Hbefore. lia.
Qed.

Lemma _get_eval_sam_set_quiet (emul_i : nat) :
  steps (emits_no is_emul_evaluate) (_get_eval_sam_set emul_i).
Proof. unfold _get_eval_sam_set. steps_tac. Qed.

Lemma _get_eval_sam_set_Return (emul_i : nat) (s s' : Pipeline)
  (eval_sam_set : list sample) :
  _get_eval_sam_set emul_i s = (s', Return eval_sam_set) →
  ∃ constraints,
    _sam_set (_emulator s) !! emul_i = Some constraints ∧
    eval_sam_set =
      lhd (_get_n_eval_sam (_base_eval_sam s) emul_i) _n_par _par_rng
        constraints.
Proof.
  unfold _get_eval_sam_set, mbind, M_bind, getitem. simpl.
  destruct (_sam_set (_emulator s) !! emul_i) as [constraints |]; [| done].
  simpl. destruct (check_signals _) as [s1 [[] | e]]; [| done]. simpl.
  intros [= _ <-]. by exists constraints.
Qed.

(** [_save_data] with the two keywords of [analyze] and of [construct]. *)
Lemma _save_data_pair (data : list sample) (n : nat) (s s' : Pipeline) :
  _save_data [impl_sam_item data; n_eval_sam_item n] s = (s', Return ()) →
  ∃ s1,
    save_item_at (_emul_i (_emulator s)) (impl_sam_item data)
      (set_log (log s ++ [LogInfo "SAVE_DATA" "Saving data to HDF5."]) s) =
      (s1, Return ()) ∧
    same_impl_sam s1 s'.
Proof.
  unfold _save_data. erewrite bind_Return by reflexivity.
  cbn [for_each]. intros H.
  apply bind_inv in H as [(sa & [] & H1 & H) | (e & _ & [=])].
  apply bind_inv in H1 as [(sb & [] & H0 & H1) | (e & _ & [=])].
  injection H0 as <-. exists sa. split; [done |].
  apply bind_inv in H as [(sc & [] & H2 & H) | (e & _ & [=])].
  injection H as <-.
  apply bind_inv in H2 as [(sd & [] & H0 & H2) | (e & _ & [=])].
  injection H0 as <-.
  assert (steps same_impl_sam
            (save_item_at (_emul_i (_emulator s)) (n_eval_sam_item n))) as Hn
    by (by apply save_item_at_same_impl_sam).
  etrans; [| exact (steps_run _ _ _ _ _ Hn H2)]. done.
Qed.

End Analyze.

Section AnalyzeResult.
Context `{ML : ModelLink} `{EM : Emulator} `{LIB : Libraries}.

Lemma same_impl_sam_lookup (s s' : Pipeline) (i : nat) (g : Group) :
  same_impl_sam s s' → file s !! i = Some g →
  ∃ g', file s' !! i = Some g' ∧ impl_sam_of g' = impl_sam_of g.
Proof.
  intros (_ & _ & _ & Hfile) Hg.
  assert ((impl_sam_of <$> file s') !! i = Some (impl_sam_of g)) as H.
  { by rewrite Hfile, lookup_fmap, Hg. }
  rewrite lookup_fmap in H. destruct (file s' !! i) as [g' |]; [| done].
  exists g'. split; [done |]. simpl in H. congruence.
Qed.

(** What follows the [try] block of [analyze] leaves the plausible samples
    alone. *)
Lemma analyze_end_same_impl_sam (emul_i : nat) (r : nat * list nat) :
  steps same_impl_sam
    ((if decide ((r.1 : nat) = 0)%nat then raise ZeroDivisionError
      else mret ());;
     _save_statistics emul_i
       ["tot_analyze_time"; "avg_emul_eval_rate"; "par_space_remaining";
        "MPI_comm_size_anal"];;
     emit (LogInfo "ANALYZE" "Finished analysis of emulator system.")).
Proof. unfold _save_statistics, emit. steps_tac. Qed.

(** A [try] statement whose body ends normally, and what follows it. *)
Lemma try_else_bind_run (R : relation Pipeline) `{!PreOrder R} {A B C : Type}
  (body : M A) (handled : exn) (handler : M B) (els : A → M B) (f : B → M C)
  (s s' : Pipeline) (a : A) :
  body s = (s', Return a) → steps R (els a) → (∀ x, steps R (f x)) →
  R s' ((try_except_else body handled handler els ≫= f) s).1.
Proof.
  intros Hb Hels Hf. unfold mbind, M_bind, try_except_else. rewrite Hb.
  specialize (Hels s'). destruct (els a s') as [s3 [x | e]]; simpl in *.
  - etrans; [exact Hels | apply Hf].
  - done.
Qed.

(** The [try] block of [analyze], when it ends normally. *)
Lemma analyze_try_Return (emul_i : nat) (s s' : Pipeline)
  (r : nat * list nat) :
  analyze_try emul_i s = (s', Return r) →
  ∃ constraints sa sb sc,
    _sam_set (_emulator s) !! emul_i = Some constraints ∧
    let eval_sam_set :=
      lhd (_get_n_eval_sam (_base_eval_sam s) emul_i) _n_par _par_rng
        constraints in
    _get_eval_sam_set emul_i s = (sa, Return eval_sam_set) ∧
    analyze_samples emul_i 0 eval_sam_set [] sa = (sb, Return r.2) ∧
    r.1 = length eval_sam_set ∧
    save_item_at (_emul_i (_emulator sb))
      (impl_sam_item (take_rows eval_sam_set r.2))
      (set_log (log sb ++ [LogInfo "SAVE_DATA" "Saving data to HDF5."]) sb) =
      (sc, Return ()) ∧
    same_impl_sam sc s' ∧
    emits_no is_emul_evaluate sb s'.
Proof.
  unfold analyze_try. intros H.
  apply bind_inv in H as [(sa & sams & Hget & H) | (e & _ & [=])].
  destruct (_get_eval_sam_set_Return _ _ _ _ Hget) as (constraints & Hc & ->).
  erewrite bind_Return in H by reflexivity.
  apply bind_inv in H as [(sb & idx & Hloop & H) | (e & _ & [=])].
  destruct (decide (_emul_type (_emulator sa) = "default")) as [Htype | ?];
    [| done].
  apply bind_inv in H as [(sd & [] & Hsave & H) | (e & _ & [=])].
  injection H as <- <-.
  destruct (_save_data_pair _ _ _ _ Hsave) as (sc & Hitem & Hsame).
  exists constraints, sa, sb, sc. split_and!; try done.
  apply (steps_run (emits_no is_emul_evaluate) _ _ _ _
           (_save_data_emits_no _ _ (λ _, eq_refl) (λ _, eq_refl)) Hsave).
Qed.

(** C2: when the analysis of iteration [emul_i] runs to its end, the samples
    it persists as [impl_sam], in memory and in the file, are the samples of
    the generated evaluation sample set that pass the cut-off check of every
    iteration from 1 to [emul_i], in their order, with their number as
    [n_impl_sam].  Every sample is evaluated at the iterations in ascending
    order, and at an iteration only if it passed the checks of all the
    iterations before it.  The rest of [analyze] leaves the persisted samples
    as they are. *)
Theorem analyze_impl_sam (s s1 s2 : Pipeline) (emul_i : nat)
  (r : nat * list nat) :
  analyze_begin s = (s1, Return emul_i) →
  analyze_try emul_i s1 = (s2, Return r) →
  ∃ constraints,
    _sam_set (_emulator s1) !! emul_i = Some constraints ∧
    let eval_sam_set :=
      lhd (_get_n_eval_sam (_base_eval_sam s1) emul_i) _n_par _par_rng
        constraints in
    let impl_sam :=
      filter (λ par_set, forallb (passes_at s1 par_set) (seq 1 emul_i) = true)
        eval_sam_set in
    _impl_sam s2 = Some impl_sam ∧
    _prc s2 = Some (bool_decide (impl_sam ≠ [])) ∧
    (∃ g, file s2 !! _emul_i (_emulator s1) = Some g ∧
          dset_impl_sam g = Some impl_sam ∧
          attrs_n_impl_sam g = Some (length impl_sam) ∧
          attrs_prc g = Some (bool_decide (impl_sam ≠ []))) ∧
    emul_evaluations (drop (length (log s1)) (log s2)) =
      flat_map (λ par_set, (λ j, (j, par_set)) <$>
                  evaluated_at s1 par_set (seq 1 emul_i)) eval_sam_set ∧
    (∀ par_set j, j ∈ evaluated_at s1 par_set (seq 1 emul_i) ↔
       (1 ≤ j ≤ emul_i)%nat ∧
       ∀ k, (1 ≤ k < j)%nat → passes_at s1 par_set k = true) ∧
    same_impl_sam s2 (analyze s).1.
Proof.
  intros Hbegin Htry.
  destruct (analyze_try_Return _ _ _ _ Htry)
    as (constraints & sa & sb & sc & Hc & Hget & Hloop & Hn & Hitem & Hsame
        & Hquiet).
  exists constraints. split; [done |]. intros eval_sam_set impl_sam.
  fold eval_sam_set in Hget, Hloop, Hn, Hitem.
  pose proof (steps_run _ _ _ _ _ (_get_eval_sam_set_same_data emul_i) Hget)
    as Hda.
  pose proof (steps_run _ _ _ _ _ (_get_eval_sam_set_quiet emul_i) Hget)
    as (ev1 & Hlog1 & Hev1).
  destruct (analyze_samples_Return _ _ _ _ _ _ _ Hloop) as (Hdb & Hidx & Hlog2).
  simpl in Hidx.
  rewrite (same_data_passing_idx _ _ _ _ _ Hda) in Hidx.
  assert (take_rows eval_sam_set r.2 = impl_sam) as Hrows.
  { rewrite Hidx. apply (take_rows_passing_idx s1 emul_i []). }
  rewrite Hrows in Hitem.
  destruct (save_impl_sam_Return _ _ _ _ Hitem)
    as (Hprc & Hsam & _ & _ & g & Hg & Hdset & Hgprc & Hgn).
  rewrite prc_nonempty in Hprc, Hgprc.
  assert (_emulator sb = _emulator s1) as Hem.
  { assert (same_data s1 sb) as Hd by (by etrans).
    unfold same_data, data_of in Hd. by injection Hd. }
  rewrite Hem in Hg.
  destruct (same_impl_sam_lookup _ _ _ _ Hsame Hg) as (g' & Hg' & Hview).
  destruct Hsame as (_ & Hprc' & Hsam' & _).
  destruct Hquiet as (ev3 & Hlog3 & Hev3).
  split; [by rewrite Hsam' |]. split; [by rewrite Hprc' |].
  split.
  { exists g'. injection Hview as H1 H2 H3. split; [done |].
    by rewrite H3, H2, H1. }
  split.
  { rewrite Hlog3, Hlog2, Hlog1, <- !app_assoc, drop_app_length.
    rewrite !emul_evaluations_app, (emul_evaluations_none ev1 Hev1),
      (emul_evaluations_none ev3 Hev3), app_nil_r. simpl.
    rewrite (emul_evaluations_flat_map
               (λ par_set, evaluated_at sa par_set (seq 1 emul_i)) id).
    apply flat_map_ext. intros par_set.
    by rewrite (same_data_evaluated_at _ _ _ _ Hda). }
  split.
  { intros par_set j. rewrite evaluated_at_seq. split.
    - intros [Hrange Hk]. split; [lia | done].
    - intros [Hrange Hk]. split; [lia | done]. }
  unfold analyze. rewrite (bind_Return _ _ _ _ _ Hbegin).
  apply (try_else_bind_run same_impl_sam _ _ _ _ _ _ _ _ Htry).
  - apply analyze_end_same_impl_sam.
  - intros []. unfold details, emit. steps_tac.
Qed.

End AnalyzeResult.

(** ** An interrupted analysis *)

Section AnalyzeInterrupted.
Context `{ML : ModelLink} `{EM : Emulator} `{LIB : Libraries}.

Lemma try_finally_inv {A : Type} (body : M A) (final : M ())
  (s s' : Pipeline) (a : A) :
  try_finally body final s = (s', Return a) →
  ∃ s1, body s = (s1, Return a) ∧ final s1 = (s', Return ()).
Proof.
  unfold try_finally. destruct (body s) as [s1 r] eqn:Hbody.
  destruct (final s1) as [s2 [[] | e]] eqn:Hfinal; [| done].
  intros [= <- ->]. by exists s1.
Qed.

Lemma update_group_Return (emul_i : nat) (upd : Group → Group)
  (s s' : Pipeline) :
  update_group emul_i upd s = (s', Return ()) →
  ∃ g, file s !! emul_i = Some g ∧ file s' !! emul_i = Some (upd g) ∧
       _emulator s' = _emulator s.
Proof.
  destruct (file s !! emul_i) as [g |] eqn:Hg.
  - rewrite (update_group_Some _ _ _ _ Hg). intros [= <-]. exists g.
    split; [done |]. split; [apply lookup_insert_eq | done].
  - by rewrite (update_group_None _ _ _ Hg).
Qed.

(** Saving the keyword ['impl_cut'] writes the cut-offs to the file. *)
Lemma save_impl_cut_Return (emul_i : nat) (impl_cut : list float)
  (cut_idx : nat) (s s' : Pipeline) :
  save_item_at emul_i (impl_cut_item impl_cut cut_idx) s = (s', Return ()) →
  ∃ g, file s' !! emul_i = Some g ∧ attrs_impl_cut g = Some impl_cut ∧
       attrs_cut_idx g = Some cut_idx.
Proof.
  intros H. apply try_finally_inv in H as (s1 & _ & H).
  apply bind_inv in H as [(sa & [] & H1 & H2) | (e & _ & [=])].
  apply update_group_Return in H1 as (g1 & _ & Hg1 & _).
  apply update_group_Return in H2 as (g2 & Hg2 & Hg' & _).
  rewrite Hg1 in Hg2. injection Hg2 as <-. by eexists.
Qed.

(** [analyze] saves the cut-offs before its [try] statement. *)
Lemma analyze_begin_Return (s s1 : Pipeline) (emul_i : nat) :
  analyze_begin s = (s1, Return emul_i) →
  ∃ full cut_idx g,
    get_impl_cut (default default_impl_cut (par_impl_cut s)) =
      Return (full, cut_idx) ∧
    file s1 !! _emul_i (_emulator s) = Some g ∧
    attrs_impl_cut g = Some full ∧ attrs_cut_idx g = Some cut_idx.
Proof.
  unfold analyze_begin. intros H.
  erewrite bind_Return in H by reflexivity.
  apply bind_inv in H as [(sa & i & H0 & H) | (e & _ & [=])].
  injection H0 as <- _.
  apply bind_inv in H as [(sb & [] & H0 & H) | (e & _ & [=])].
  injection H0 as <-.
  apply bind_inv in H as [(sc & [] & Hpar & H) | (e & _ & [=])].
  injection H as <- _.
  unfold _get_impl_par in Hpar.
  apply bind_inv in Hpar as [(sd & [] & H0 & Hpar) | (e & _ & [=])].
  injection H0 as <-.
  erewrite bind_Return in Hpar by reflexivity.
  apply bind_inv in Hpar as [(se & [] & Hcut & Hpar) | (e & _ & [=])].
  injection Hpar as <-.
  unfold _get_impl_cut in Hcut.
  apply bind_inv in Hcut as [(sf & [] & H0 & Hcut) | (e & _ & [=])].
  injection H0 as <-.
  apply bind_inv in Hcut as [(sg & [full cut_idx] & Hget & Hcut) | (e & _ & [=])].
  injection Hget as <- Hget.
  apply bind_inv in Hcut as [(sh & [] & Hsave & Hcut) | (e & _ & [=])].
  injection Hcut as <-.
  rewrite _save_data_singleton in Hsave.
  apply bind_inv in Hsave as [(si & [] & Hitem & Hsave) | (e & _ & [=])].
  injection Hsave as <-.
  apply save_impl_cut_Return in Hitem as (g & Hg & Hg1 & Hg2).
  exists full, cut_idx, g. done.
Qed.


End AnalyzeInterrupted.

(** ** The construction of an iteration *)

Section ConstructResume.
Context `{ML : ModelLink} `{EM : Emulator} `{LIB : Libraries}.

Lemma bind_first_run (R : relation Pipeline) `{!PreOrder R} {A B : Type}
  (m : M A) (f : A → M B) (s s1 : Pipeline) (r : result A) :
  m s = (s1, r) → (∀ a, steps R (f a)) → R s1 ((m ≫= f) s).1.
Proof.
  intros Hm Hf. unfold mbind, M_bind. rewrite Hm.
  destruct r as [a | e]; [apply Hf | done].
Qed.

Lemma same_data_fields (s s' : Pipeline) :
  same_data s s' →
  _n_eval_sam s' = _n_eval_sam s ∧ _prc s' = _prc s ∧
  _emulator s' = _emulator s ∧ file s' = file s.
Proof. unfold same_data, data_of. intros H. by injection H. Qed.

(** A construction from the start is the part of [if c_from_start:]
    followed by what a resumed construction does. *)
Lemma construct_iteration_from_start (emul_i : nat) (do_analyze : bool)
  (ext_init_set : option (list sample * list (list float))) (s : Pipeline) :
  construct_iteration emul_i true do_analyze ext_init_set s =
  (construct_from_start emul_i ext_init_set ≫= λ _,
   construct_iteration emul_i false do_analyze ext_init_set) s.
Proof.
  unfold construct_iteration, mbind, M_bind.
  by destruct (construct_from_start emul_i ext_init_set s) as [s1 [[] | e]].
Qed.

(** What follows the call of the emulator in a resumed construction. *)
Lemma construct_iteration_call (emul_i : nat) (do_analyze : bool)
  (ext_init_set : option (list sample * list (list float)))
  (s s1 : Pipeline) (r : result ()) :
  emulator_call "_construct_iteration" emul_i (_construct_iteration emul_i) s =
    (s1, r) →
  resumes s1 (construct_iteration emul_i false do_analyze ext_init_set s).1.
Proof.
  intros Hcall. unfold construct_iteration.
  erewrite bind_Return by reflexivity.
  eapply bind_first_run; [typeclasses eauto | exact Hcall |].
  intros []. steps_tac.
Qed.

(** C1: for an iteration with the construction checklist [ccheck],
    [construct] with [force] false decides by ['mod_real_set']: when it is
    not on the checklist, nothing is done before [_construct_iteration] of
    the emulator is called on the emulator and the file as they are, which
    completes what is left, and the whole call produces no event of a
    construction from the start: no call of the model, no record of the
    model evaluation, no call of the emulator methods that create or reset
    an iteration or store model realizations.  When it is on the checklist,
    the iteration is constructed from the start: a call that returns
    normally went through [_evaluate_model] before it did what a resumed
    construction does. *)
Theorem construct_resume (s : Pipeline) (req : option nat) (emul_i : nat)
  (do_analyze : bool)
  (ext_init_set : option (list sample * list (list float)))
  (ccheck : list string) :
  (resolve_emul_i req s).2 = Return emul_i →
  _ccheck (_emulator s) !! emul_i = Some ccheck →
  ("mod_real_set" ∉ ccheck →
   ∃ s0 s1 r,
     same_data s s0 ∧
     construct req do_analyze ext_init_set false s =
       construct_iteration emul_i false do_analyze ext_init_set s0 ∧
     emulator_call "_construct_iteration" emul_i
       (_construct_iteration emul_i) s0 = (s1, r) ∧
     (_emulator s1, file s1) =
       (_construct_iteration emul_i (_emulator s, file s)).1 ∧
     resumes s1 (construct req do_analyze ext_init_set false s).1 ∧
     resumes s (construct req do_analyze ext_init_set false s).1) ∧
  ("mod_real_set" ∈ ccheck →
   ∃ s0,
     same_data s s0 ∧
     construct req do_analyze ext_init_set false s =
       (construct_from_start emul_i ext_init_set ≫= λ _,
        construct_iteration emul_i false do_analyze ext_init_set) s0 ∧
     ∀ s', construct req do_analyze ext_init_set false s = (s', Return ()) →
       ∃ s1 events,
         construct_from_start emul_i ext_init_set s0 = (s1, Return ()) ∧
         log s1 = events ++
           [LogInfo "MODEL" "Finished evaluating model samples."] ∧
         resumes s1 s').
Proof.
  intros Hreq Hcheck.
  destruct (construct_eq req do_analyze ext_init_set false s emul_i Hreq)
    as (s0 & _ & Hdata & Hres & Hrun).
  unfold c_from_start in Hrun. rewrite Hcheck in Hrun. simpl in Hrun.
  split; intros Hmod.
  - rewrite bool_decide_eq_false_2 in Hrun by done.
    destruct (emulator_call "_construct_iteration" emul_i
                (_construct_iteration emul_i) s0) as [s1 r] eqn:Hcall.
    exists s0, s1, r. split; [done |]. split; [done |]. split; [done |].
    split.
    { destruct (same_data_fields _ _ Hdata) as (_ & _ & Hem & Hfile).
      unfold emulator_call in Hcall. simpl in Hcall.
      rewrite Hem, Hfile in Hcall.
      destruct (_construct_iteration emul_i (_emulator s, file s))
        as [[em f] r'].
      by injection Hcall as <- <-. }
    rewrite Hrun. split.
    + by apply (construct_iteration_call _ _ _ _ _ r).
    + etrans; [exact Hres |]. apply construct_iteration_resumes.
  - rewrite bool_decide_eq_true_2 in Hrun by done.
    rewrite construct_iteration_from_start in Hrun.
    exists s0. split; [done |]. split; [done |].
    intros s' Hret. rewrite Hrun in Hret.
    apply bind_inv in Hret as [(s1 & [] & Hstart & Hrest) | (e & _ & [=])].
    destruct (construct_from_start_Return _ _ _ _ Hstart) as [events Hlog].
    exists s1, events. split; [done |]. split; [done |].
    apply (steps_run _ _ _ _ _
             (construct_iteration_resumes emul_i do_analyze ext_init_set)
             Hrest).
Qed.

(** C7, as the code has it: the plausible region is looked at only when the
    iteration is constructed from the start.  Then, for an iteration other
    than the first, a previous iteration that was analyzed with [prc] false
    makes [construct] raise [RequestError] and leave the pipeline, the
    emulator and the file as they are; a previous iteration that was not
    analyzed is analyzed first, an exception of the analysis ends the call,
    and [prc] false after the analysis makes [construct] raise
    [RequestError] and leave everything as the analysis left it. *)
Theorem construct_precondition (s : Pipeline) (req : option nat)
  (emul_i : nat) (do_analyze : bool)
  (ext_init_set : option (list sample * list (list float))) (force : bool)
  (n : option nat) :
  (resolve_emul_i req s).2 = Return emul_i →
  emul_i ≠ 1%nat →
  c_from_start (_emulator s) emul_i force = true →
  _n_eval_sam s !! (emul_i - 1)%nat = Some n →
  (not_analyzed n = false → _prc s = Some false →
   ∃ s', construct req do_analyze ext_init_set force s =
           (s', Raise RequestError) ∧
         same_data s s') ∧
  (not_analyzed n = true →
   ∃ s0, same_data s s0 ∧
     (∀ s1 e, analyze s0 = (s1, Raise e) →
        construct req do_analyze ext_init_set force s = (s1, Raise e)) ∧
     (∀ s1, analyze s0 = (s1, Return ()) → _prc s1 = Some false →
        ∃ s', construct req do_analyze ext_init_set force s =
                (s', Raise RequestError) ∧
              same_data s1 s')).
Proof.
  intros Hreq Hne Hstart Hn.
  destruct (construct_eq req do_analyze ext_init_set force s emul_i Hreq)
    as (s0 & _ & Hdata & _ & Hrun).
  rewrite Hstart, construct_iteration_from_start in Hrun.
  destruct (same_data_fields _ _ Hdata) as (Hn0 & Hprc0 & _ & _).
  rewrite <- Hn0 in Hn. split.
  - intros Hdone Hprc. rewrite <- Hprc0 in Hprc.
    destruct (construct_from_start_refused emul_i ext_init_set s0 n
                Hne Hn Hdone Hprc) as (s' & Hraise & Hsame).
    exists s'. split; [| by etrans].
    rewrite Hrun. by apply bind_Raise.
  - intros Hnot.
    destruct (construct_from_start_analyzes emul_i ext_init_set s0 n
                Hne Hn Hnot) as (sa & Hsame & _ & Hexn & Hret).
    exists sa. split; [by etrans |]. split.
    + intros s1 e Han. rewrite Hrun. apply bind_Raise. by apply Hexn.
    + intros s1 Han Hprc. destruct (Hret s1 Han Hprc) as (s' & Hraise & Hs).
      exists s'. split; [| done]. rewrite Hrun. by apply bind_Raise.
Qed.

End ConstructResume.

(** * Part IV: the properties on the small pipeline *)

Section Examples.
#[local] Existing Instances example_link example_emulator example_libraries.

(** With the default cut-offs, the values [1.0, 5.0, 2.0] pass: the highest
    value meets the wildcard, and the check returns the second highest. *)
Lemma _do_impl_check_sorted_default :
  _cut_idx (with_cuts [0; 4.0; 3.8; 3.5] 1) !! 1%nat = Some (Some 1%nat) ∧
  _impl_cut (with_cuts [0; 4.0; 3.8; 3.5] 1) !! 1%nat =
    Some [0; 4.0; 3.8; 3.5] ∧
  _do_impl_check (with_cuts [0; 4.0; 3.8; 3.5] 1) 1 [1.0; 5.0; 2.0] =
    Return (true, 2.0).
Proof.
  split; [reflexivity |]. split; [reflexivity |].
  destruct (_do_impl_check_sorted (with_cuts [0; 4.0; 3.8; 3.5] 1) 1 1
              [0; 4.0; 3.8; 3.5] [1.0; 5.0; 2.0] eq_refl eq_refl)
    as (_ & _ & H & _).
  exact H.
Defined.

(** With the default cut-offs, whose [cut_idx] is 1, the check of a single
    value raises [IndexError], although no value is above a cut-off. *)
Lemma _do_impl_check_short :
  get_impl_cut default_impl_cut = Return ([0; 4.0; 3.8; 3.5], 1%nat) ∧
  existsb exceeds (zip (np_flip (np_sort [5.0])) [0; 4.0; 3.8; 3.5]) = false ∧
  _do_impl_check (with_cuts [0; 4.0; 3.8; 3.5] 1) 1 [5.0] = Raise IndexError.
Proof. by vm_compute. Qed.

Lemma _do_impl_check_example_first :
  _cut_idx (with_cuts [3.5; 0; 0] 0) !! 1%nat = Some (Some 0%nat) ∧
  _impl_cut (with_cuts [3.5; 0; 0] 0) !! 1%nat = Some [3.5; 0; 0] ∧
  _do_impl_check (with_cuts [3.5; 0; 0] 0) 1 [3.6; 1.0; 0.5] =
    Return (false, 3.6) ∧
  _do_impl_check (with_cuts [3.5; 0; 0] 0) 1 [3.4; 1.0; 0.5] =
    Return (true, 3.4).
Proof.
  split; [reflexivity |]. split; [reflexivity |].
  destruct (_do_impl_check_example (with_cuts [3.5; 0; 0] 0) 1
              eq_refl eq_refl) as (H1 & _ & _ & H2 & _).
  by split.
Defined.

(** The values [3.4, 5.0, 5.0] do not pass the cut-offs [3.5, 0, 0]: sorted,
    their first value is 5.0. *)
Lemma _do_impl_check_unsorted_fails :
  _cut_idx (with_cuts [3.5; 0; 0] 0) !! 1%nat = Some (Some 0%nat) ∧
  _impl_cut (with_cuts [3.5; 0; 0] 0) !! 1%nat = Some [3.5; 0; 0] ∧
  np_flip (np_sort [3.4; 5.0; 5.0]) = [5.0; 5.0; 3.4] ∧
  _do_impl_check (with_cuts [3.5; 0; 0] 0) 1 [3.4; 5.0; 5.0] =
    Return (false, 5.0).
Proof. by vm_compute. Qed.

(** The default cut-off list starts with a wildcard and is accepted. *)
Lemma _get_impl_cut_default_accepted :
  default_impl_cut !! 0%nat = Some 0 ∧
  get_impl_cut default_impl_cut = Return ([0; 4.0; 3.8; 3.5], 1%nat) ∧
  (_get_impl_par true (example_object default_impl_cut 3 None
                         {| ex_emul_i := 0; ex_ccheck := [[]] |} ∅)).2 =
    Return ().
Proof. by vm_compute. Qed.

(** Saving one plausible sample after the construction of the first
    iteration. *)
Lemma _save_data_impl_sam_constructed :
  ∃ s' g,
    _save_data [impl_sam_item [[1]]] (constructed 3 None) = (s', Return ()) ∧
    _prc s' = Some true ∧ _impl_sam s' = Some [[1]] ∧
    _n_impl_sam s' !! 1%nat = Some (Some 1%nat) ∧
    file s' !! 1%nat = Some g ∧ attrs_prc g = Some true ∧
    attrs_n_impl_sam g = Some 1%nat ∧ dset_impl_sam g = Some [[1]].
Proof.
  destruct (_save_data_impl_sam (constructed 3 None) [[1]])
    as [(s' & g & H1 & H2 & H3 & H4 & H5 & H6 & H7 & H8 & _) _].
  - vm_compute. split; [intros _; by eexists | intros _; lia].
  - vm_compute. lia.
  - exists s', g. by split_and!.
Defined.

(** The analysis of the first iteration: of the samples [0], [1/2] and [1],
    the first fails the check and the two others are persisted. *)
Lemma analyze_impl_sam_first :
  analyze_begin (constructed 3 None) =
    ((analyze_begin (constructed 3 None)).1, Return 1%nat) ∧
  analyze_try 1 (analyze_begin (constructed 3 None)).1 =
    ((analyze_try 1 (analyze_begin (constructed 3 None)).1).1,
     Return (3%nat, [1; 2]%nat)) ∧
  _impl_sam (analyze_try 1 (analyze_begin (constructed 3 None)).1).1 =
    Some [[1 # 2]; [2 # 2]] ∧
  _impl_sam (analyze (constructed 3 None)).1 = Some [[1 # 2]; [2 # 2]].
Proof.
  assert (analyze_begin (constructed 3 None) =
            ((analyze_begin (constructed 3 None)).1, Return 1%nat)) as Hbegin
    by (by vm_compute).
  assert (analyze_try 1 (analyze_begin (constructed 3 None)).1 =
            ((analyze_try 1 (analyze_begin (constructed 3 None)).1).1,
             Return (3%nat, [1; 2]%nat))) as Htry
    by (by vm_compute).
  split; [exact Hbegin |]. split; [exact Htry |].
  destruct (analyze_impl_sam _ _ _ _ _ Hbegin Htry)
    as (constraints & Hc & Hsam & _ & _ & _ & _ & Hrest).
  destruct Hrest as (_ & _ & Hend & _).
  split.
  - rewrite Hsam. vm_compute in Hc. injection Hc as <-. by vm_compute.
  - rewrite Hend, Hsam. vm_compute in Hc. injection Hc as <-. by vm_compute.
Defined.



(** The construction of the second iteration, stopped after the model
    realizations were stored, is resumed without an event of a construction
    from the start; stopped before, it is done from the start. *)
Lemma construct_resume_second :
  (resolve_emul_i (Some 2%nat) second_begun).2 = Return 2%nat ∧
  _ccheck (_emulator second_begun) !! 2%nat =
    Some ["active_par"; "regression"; "prior_exp_sam_set"; "cov_mat"] ∧
  resumes second_begun (construct (Some 2%nat) false None false second_begun).1 ∧
  (resolve_emul_i (Some 2%nat) second_prepared).2 = Return 2%nat ∧
  _ccheck (_emulator second_prepared) !! 2%nat = Some full_ccheck ∧
  ∃ s0, same_data second_prepared s0 ∧
        construct (Some 2%nat) false None false second_prepared =
        (construct_from_start 2 None ≫= λ _,
         construct_iteration 2 false false None) s0.
Proof.
  assert ((resolve_emul_i (Some 2%nat) second_begun).2 = Return 2%nat) as Hreq
    by (vm_compute; reflexivity).
  assert (_ccheck (_emulator second_begun) !! 2%nat =
            Some ["active_par"; "regression"; "prior_exp_sam_set"; "cov_mat"])
    as Hcheck by (vm_compute; reflexivity).
  assert ((resolve_emul_i (Some 2%nat) second_prepared).2 = Return 2%nat)
    as Hreq' by (vm_compute; reflexivity).
  assert (_ccheck (_emulator second_prepared) !! 2%nat = Some full_ccheck)
    as Hcheck' by (vm_compute; reflexivity).
  split; [exact Hreq |]. split; [exact Hcheck |]. split.
  { destruct (construct_resume second_begun (Some 2%nat) 2 false None
                ["active_par"; "regression"; "prior_exp_sam_set"; "cov_mat"]
                Hreq Hcheck) as [Hresume _].
    destruct Hresume as (s0 & s1 & r & _ & _ & _ & _ & _ & H).
    - apply (bool_decide_unpack _). vm_compute. exact I.
    - exact H. }
  split; [exact Hreq' |]. split; [exact Hcheck' |].
  destruct (construct_resume second_prepared (Some 2%nat) 2 false None
              full_ccheck Hreq' Hcheck') as [_ Hstart].
  destruct Hstart as (s0 & Hdata & Hrun & _).
  - apply (bool_decide_unpack _). vm_compute. exact I.
  - exists s0. split; [exact Hdata | exact Hrun].
Defined.

(** After an analysis of the first iteration that found no plausible
    sample, the construction of the second iteration is refused. *)
Lemma construct_precondition_refused :
  (resolve_emul_i (Some 2%nat) (first_reanalyzed (constructed 3 None))).2 =
    Return 2%nat ∧
  c_from_start (_emulator (first_reanalyzed (constructed 3 None))) 2 false =
    true ∧
  _n_eval_sam (first_reanalyzed (constructed 3 None)) !! 1%nat =
    Some (Some 1%nat) ∧
  _prc (first_reanalyzed (constructed 3 None)) = Some false ∧
  ∃ s', construct (Some 2%nat) false None false
          (first_reanalyzed (constructed 3 None)) = (s', Raise RequestError) ∧
        same_data (first_reanalyzed (constructed 3 None)) s'.
Proof.
  assert ((resolve_emul_i (Some 2%nat)
             (first_reanalyzed (constructed 3 None))).2 = Return 2%nat)
    as Hreq by (vm_compute; reflexivity).
  assert (c_from_start (_emulator (first_reanalyzed (constructed 3 None)))
            2 false = true) as Hstart by (vm_compute; reflexivity).
  assert (_n_eval_sam (first_reanalyzed (constructed 3 None)) !! 1%nat =
            Some (Some 1%nat)) as Hn by (vm_compute; reflexivity).
  assert (_prc (first_reanalyzed (constructed 3 None)) = Some false) as Hprc
    by (vm_compute; reflexivity).
  split; [exact Hreq |]. split; [exact Hstart |]. split; [exact Hn |].
  split; [exact Hprc |].
  destruct (construct_precondition (first_reanalyzed (constructed 3 None))
              (Some 2%nat) 2 false None false (Some 1%nat)
              Hreq ltac:(lia) Hstart Hn) as [Hrefused _].
  exact (Hrefused eq_refl Hprc).
Defined.

(** When the first iteration was not analyzed, [construct] analyzes it; an
    analysis that finds no plausible sample ends the construction. *)
Lemma construct_analyzes_first :
  _n_eval_sam (new_session [3.5] 1 None (constructed 3 None)) !! 1%nat =
    Some (Some 0%nat) ∧
  (construct (Some 2%nat) false None false
     (new_session [3.5] 1 None (constructed 3 None))).2 = Raise RequestError ∧
  _n_eval_sam (construct (Some 2%nat) false None false
                 (new_session [3.5] 1 None (constructed 3 None))).1 !! 1%nat =
    Some (Some 1%nat).
Proof. by vm_compute. Qed.

(** After an analysis of the first iteration that found no plausible
    sample, a construction of the second iteration that was stopped after
    its model realizations were stored is completed: [construct] returns
    normally and writes to the second group of the file. *)
Lemma construct_resumes_without_plausible_region :
  _n_eval_sam (first_reanalyzed second_begun) !! 1%nat = Some (Some 1%nat) ∧
  _n_impl_sam (first_reanalyzed second_begun) !! 1%nat = Some (Some 0%nat) ∧
  _prc (first_reanalyzed second_begun) = Some false ∧
  (construct (Some 2%nat) false None false (first_reanalyzed second_begun)).2 =
    Return () ∧
  (file (first_reanalyzed second_begun) !! 2%nat) ≫= dset_impl_sam = None ∧
  (file (construct (Some 2%nat) false None false
           (first_reanalyzed second_begun)).1 !! 2%nat) ≫= dset_impl_sam =
    Some [] ∧
  _emul_i (_emulator (first_reanalyzed second_begun)) = 1%nat ∧
  _emul_i (_emulator (construct (Some 2%nat) false None false
                        (first_reanalyzed second_begun)).1) = 2%nat.
Proof. by vm_compute. Qed.

End Examples.
